(** * PowF strength reduction (mlir/lib/Dialect/Math/Transforms/AlgebraicSimplification.cpp)

    A shallow embedding of [PowFStrengthReduction::matchAndRewrite] and of the
    part of the host (floating-point values, attributes, operations, the
    pattern rewriter) that the pattern reads and writes. *)

From Stdlib Require Import ZArith List Bool Lia String PeanoNat.
From Stdlib Require Import Floats.
Import ListNotations.

Set Implicit Arguments.

(* ------------------------------------------------------------------------- *)
(** ** Floating-point values (llvm::APFloat) *)
(* ------------------------------------------------------------------------- *)

Module APFloatModel.

(** Modelled from the spec: the floating-point value of a constant, which the
    rule compares "by bit-exact floating-point equality against the target
    value".  llvm::APFloat is not part of the source file; a value is held as
    llvm::detail::IEEEFloat holds it, by its format, category, sign, exponent
    and significand. *)
Inductive fltSemantics :=
| IEEEhalf | BFloat | IEEEsingle | IEEEdouble | x87DoubleExtended | IEEEquad.

Definition fltSemantics_eqb (a b : fltSemantics) : bool :=
  match a, b with
  | IEEEhalf, IEEEhalf | BFloat, BFloat | IEEEsingle, IEEEsingle
  | IEEEdouble, IEEEdouble | x87DoubleExtended, x87DoubleExtended
  | IEEEquad, IEEEquad => true
  | _, _ => false
  end.

(** Number of bits of the significand, the integer bit included. *)
Definition precision (s : fltSemantics) : Z :=
  match s with
  | IEEEhalf => 11 | BFloat => 8 | IEEEsingle => 24
  | IEEEdouble => 53 | x87DoubleExtended => 64 | IEEEquad => 113
  end.

Definition maxExponent (s : fltSemantics) : Z :=
  match s with
  | IEEEhalf => 15 | BFloat => 127 | IEEEsingle => 127
  | IEEEdouble => 1023 | x87DoubleExtended => 16383 | IEEEquad => 16383
  end.

Definition minExponent (s : fltSemantics) : Z :=
  match s with
  | IEEEhalf => -14 | BFloat => -126 | IEEEsingle => -126
  | IEEEdouble => -1022 | x87DoubleExtended => -16382 | IEEEquad => -16382
  end.

Inductive fltCategory := fcInfinity | fcNaN | fcNormal | fcZero.

Definition fltCategory_eqb (a b : fltCategory) : bool :=
  match a, b with
  | fcInfinity, fcInfinity | fcNaN, fcNaN | fcNormal, fcNormal
  | fcZero, fcZero => true
  | _, _ => false
  end.

(** The value is [(-1)^sign * significand * 2^(exponent - (precision - 1))]
    when the category is [fcNormal]. *)
Record APFloat := mkAPFloat {
  getSemantics : fltSemantics;
  significand : Z;
  exponent : Z;
  category : fltCategory;
  sign : bool
}.

Definition isFiniteNonZero (a : APFloat) : bool :=
  match category a with fcNormal => true | _ => false end.

(** Modelled from the spec: "bit-exact" equality, no tolerance.
    IEEEFloat::bitwiseIsEqual: same semantics, category and sign; zeros and
    infinities are then equal; finite values also need the same exponent; the
    significand parts are compared last (for NaNs this is the payload). *)
Definition bitwiseIsEqual (a rhs : APFloat) : bool :=
  if negb (fltSemantics_eqb (getSemantics a) (getSemantics rhs))
     || negb (fltCategory_eqb (category a) (category rhs))
     || negb (Bool.eqb (sign a) (sign rhs))
  then false
  else
    match category a with
    | fcZero | fcInfinity => true
    | _ =>
        if isFiniteNonZero a && negb (exponent a =? exponent rhs)%Z
        then false
        else (significand a =? significand rhs)%Z
    end.

(** The bridge to the IEEE 754 specification of the Standard Library:
    [S754_finite s m e] is [(-1)^s * m * 2^e]. *)
Definition toSpec (a : APFloat) : spec_float :=
  match category a with
  | fcZero => S754_zero (sign a)
  | fcInfinity => S754_infinity (sign a)
  | fcNaN => S754_nan
  | fcNormal =>
      match significand a with
      | Zpos m =>
          S754_finite (sign a) m (exponent a - (precision (getSemantics a) - 1))
      | _ => S754_zero (sign a)
      end
  end.

Definition fromSpec (s : fltSemantics) (f : spec_float) : APFloat :=
  match f with
  | S754_zero sg => mkAPFloat s 0 (minExponent s - 1) fcZero sg
  | S754_infinity sg => mkAPFloat s 0 (maxExponent s + 1) fcInfinity sg
  | S754_nan =>
      mkAPFloat s (2 ^ (precision s - 2)) (maxExponent s + 1) fcNaN false
  | S754_finite sg m e => mkAPFloat s (Zpos m) (e + (precision s - 1)) fcNormal sg
  end.

(** Modelled from the spec: the "target value" of a rule, a C++ [double].
    APFloat(double) holds it in IEEEdouble semantics. *)
Definition APFloat_of_double (V : float) : APFloat :=
  fromSpec IEEEdouble (Prim2SF V).

(** Modelled from the spec: the target value taken to the format of the
    constant it is compared with.
    APFloat::convert(toSemantics, rmNearestTiesToEven, &losesInfo): the value
    rounded to the target format, to nearest with ties to even.  (NaN payloads
    are not carried over; the pattern converts finite literals only.) *)
Definition convert (toSemantics : fltSemantics) (a : APFloat) : APFloat :=
  fromSpec toSemantics
    match toSpec a with
    | S754_finite sg m e =>
        binary_round (precision toSemantics) (maxExponent toSemantics + 1) sg m e
    | f => f
    end.

(** Modelled from the spec: the "exact constant match (by bit-exact
    floating-point equality against the target value - no
    tolerance/epsilon)".  APFloat::isExactlyValue(double V):
    [APFloat Tmp(V); Tmp.convert(getSemantics(), rmNearestTiesToEven, &ignored);
     return bitwiseIsEqual(Tmp);] *)
Definition isExactlyValue (a : APFloat) (V : float) : bool :=
  let Tmp := APFloat_of_double V in
  let Tmp := convert (getSemantics a) Tmp in
  bitwiseIsEqual a Tmp.

End APFloatModel.
Import APFloatModel.

(* ------------------------------------------------------------------------- *)
(** ** Types, attributes, values and operations of the host *)
(* ------------------------------------------------------------------------- *)

Module IR.

(** Modelled from the spec: the "numeric type" of a floating-point power
    operation; the float types of MLIR and their formats. *)
Inductive FloatType := BF16 | F16 | F32 | F64 | F80 | F128.

Definition getFloatSemantics (t : FloatType) : fltSemantics :=
  match t with
  | BF16 => BFloat | F16 => IEEEhalf | F32 => IEEEsingle
  | F64 => IEEEdouble | F80 => x87DoubleExtended | F128 => IEEEquad
  end.

(** Modelled from the spec: ResultType, "either a scalar numeric type or a
    fixed-size vector of a numeric type"; mlir::Type is declared outside the
    source file. *)
Inductive Type_ :=
| FloatTy (t : FloatType)
| VectorType (shape : list nat) (elementType : FloatType).

(** Modelled from the spec: type introspection, the element type of a vector
    type.  getElementTypeOrSelf(Type) of mlir/IR/TypeUtilities.h. *)
Definition getElementTypeOrSelf (t : Type_) : Type_ :=
  match t with
  | FloatTy _ => t
  | VectorType _ e => FloatTy e
  end.

(** Modelled from the spec: type introspection, "whether it is a vector
    (shaped) type".  Type::dyn_cast<VectorType>(). *)
Definition dyn_cast_VectorType (t : Type_) : option Type_ :=
  match t with
  | VectorType _ _ => Some t
  | FloatTy _ => None
  end.

(** Modelled from the spec: a scalar constant, "a single floating-point
    value", with its type. *)
Record FloatAttr := mkFloatAttr {
  attrType : Type_;
  getValue : APFloat
}.

(** Modelled from the spec: a vector constant is a splat when "every element
    is equal", and its splat value is the shared value.  DenseFPElementsAttr
    is declared outside the source file. *)
Record DenseFPElementsAttr := mkDenseFP {
  denseType : Type_;
  elements : list APFloat
}.

Definition isSplat (d : DenseFPElementsAttr) : bool :=
  match elements d with
  | [] => false
  | e :: rest => forallb (bitwiseIsEqual e) rest
  end.

(** Called on splats only ([isSplat] guards it in the pattern); an attribute
    without elements has no splat value, the zero below is never compared. *)
Definition getSplatValue (d : DenseFPElementsAttr) : FloatAttr :=
  mkFloatAttr (getElementTypeOrSelf (denseType d))
    match elements d with
    | e :: _ => e
    | [] => mkAPFloat IEEEdouble 0 (-1023) fcZero false
    end.

(** Modelled from the spec: what a constant operation holds; [AOther] stands
    for every attribute that is no floating-point constant. *)
Inductive Attribute :=
| AFloat (a : FloatAttr)
| ADenseFP (d : DenseFPElementsAttr)
| AOther (name : string).

(** Modelled from the spec: the value of the constant a rule materializes.
    FloatAttr::get(Type, double), reached through Builder::getFloatAttr: the
    double is kept as is for f64 and for a type that is no float type, and is
    rounded to the semantics of the float type otherwise. *)
Definition getFloatAttr (type : Type_) (value : float) : FloatAttr :=
  match type with
  | FloatTy F64 | VectorType _ _ => mkFloatAttr type (APFloat_of_double value)
  | FloatTy t =>
      mkFloatAttr type (convert (getFloatSemantics t) (APFloat_of_double value))
  end.

Definition OpId := nat.

(** Modelled from the spec: "operands are references to other operations'
    results".  A value is a block argument or the result of an operation, and
    carries its type. *)
Inductive Value :=
| BlockArgument (argNumber : nat) (ty : Type_)
| OpResult (owner : OpId) (ty : Type_).

Definition getValueType (v : Value) : Type_ :=
  match v with
  | BlockArgument _ ty | OpResult _ ty => ty
  end.

(** Modelled from the spec: an Operation "has a kind (e.g. power, multiply,
    divide, square-root, constant, broadcast), an ordered list of operand
    references, and a result type".  A constant carries its value. *)
Inductive OpKind :=
| PowF | MulF | DivF | Sqrt | Broadcast
| Constant (value : Attribute)
| OtherOp (name : string).

Record Operation := mkOperation {
  opId : OpId;
  kind : OpKind;
  operands : list Value;
  resultType : Type_
}.

Definition getResult (o : Operation) : Value := OpResult (opId o) (resultType o).

(** Modelled from the spec: "a binary power operation with operands (base,
    exponent)".  The typed handle math::PowFOp: by its declaration the
    operation has the two operands [lhs] and [rhs] and one result. *)
Record PowFOp := mkPowFOp {
  getOperation : OpId;
  lhs : Value;
  rhs : Value;
  getType : Type_
}.

Definition toOperation (op : PowFOp) : Operation :=
  mkOperation (getOperation op) PowF [lhs op; rhs op] (getType op).

Definition isSqrt (o : Operation) : bool :=
  match kind o with Sqrt => true | _ => false end.

End IR.
Import IR.

(* ------------------------------------------------------------------------- *)
(** ** The pattern rewriter *)
(* ------------------------------------------------------------------------- *)

Module Rewriter.

(** Modelled from the spec: the host's services "operation construction"
    (insert before the point of rewrite, obtain the result) and
    "substitution/replacement" (redirect every use of the old result, remove
    the old operation).  mlir::PatternRewriter is declared outside the source
    file.  [block] is the program in order, [insertionPoint] the operation new
    ones are placed before, [nextId] the identity of the next operation. *)
Record PatternRewriter := mkRewriter {
  block : list Operation;
  insertionPoint : OpId;
  nextId : OpId
}.

(** Computations that read and update the rewriter. *)
Definition M (A : Type) : Type := PatternRewriter -> A * PatternRewriter.

Definition ret {A} (a : A) : M A := fun rw => (a, rw).

Definition bind {A B} (c : M A) (k : A -> M B) : M B :=
  fun rw => let (a, rw') := c rw in k a rw'.

Declare Scope rewriter_scope.
Delimit Scope rewriter_scope with rewriter.
Notation "x <- c ;; k" := (bind c (fun x => k))
  (at level 61, c at next level, right associativity) : rewriter_scope.
Notation "c ;; k" := (bind c (fun _ => k))
  (at level 61, right associativity) : rewriter_scope.
Local Open Scope rewriter_scope.

(** Values are compared by what defines them. *)
Definition sameValue (a b : Value) : bool :=
  match a, b with
  | BlockArgument n _, BlockArgument m _ => n =? m
  | OpResult n _, OpResult m _ => n =? m
  | _, _ => false
  end.

(** [new] placed before the operation [ip] of the program (at the end when
    [ip] is not in it). *)
Fixpoint insertBefore (ip : OpId) (new : Operation) (ops : list Operation)
  : list Operation :=
  match ops with
  | [] => [new]
  | o :: rest =>
      if opId o =? ip then new :: o :: rest
      else o :: insertBefore ip new rest
  end.

(** Operation::replaceUsesOfWith: the operands of [o] that are [from] become
    [to]. *)
Definition replaceUsesOfWith (from to : Value) (o : Operation) : Operation :=
  mkOperation (opId o) (kind o)
    (map (fun v => if sameValue v from then to else v) (operands o))
    (resultType o).

(** Operation::erase: the operation [id] leaves the program. *)
Definition eraseOp (id : OpId) (ops : list Operation) : list Operation :=
  filter (fun o => negb (opId o =? id)) ops.

(** Modelled from the spec: operation construction, "insert before the point
    of rewrite".  OpBuilder::create: a new operation before the insertion
    point, its result returned. *)
Definition create (k : OpKind) (args : list Value) (ty : Type_) : M Value :=
  fun rw =>
    let o := mkOperation (nextId rw) k args ty in
    (getResult o,
     mkRewriter (insertBefore (insertionPoint rw) o (block rw))
                (insertionPoint rw) (S (nextId rw))).

(** Modelled from the spec: the kinds of operation the host constructs
    (multiply, divide, square-root, broadcast, constant-materialize).  A
    multiply, divide or square root built from its operands alone takes the
    type of its first operand; a constant takes the type of its attribute; a
    broadcast the vector type it is given. *)
Definition create_MulFOp (a b : Value) : M Value :=
  create MulF [a; b] (getValueType a).

Definition create_DivFOp (a b : Value) : M Value :=
  create DivF [a; b] (getValueType a).

Definition create_SqrtOp (a : Value) : M Value :=
  create Sqrt [a] (getValueType a).

Definition create_ConstantOp (value : FloatAttr) : M Value :=
  create (Constant (AFloat value)) [] (attrType value).

Definition create_BroadcastOp (vec : Type_) (source : Value) : M Value :=
  create Broadcast [source] vec.

(** Modelled from the spec: substitution, "redirect every use of the old
    result to the new one"; the old operation is removed at once.
    PatternRewriter::replaceOp: all uses of the result of [op] become uses of
    [newValue], then [op] is erased. *)
Definition replaceOp (op : PowFOp) (newValue : Value) : M unit :=
  fun rw =>
    (tt,
     mkRewriter
       (eraseOp (getOperation op)
          (map (replaceUsesOfWith (getResult (toOperation op)) newValue)
               (block rw)))
       (insertionPoint rw) (nextId rw)).

(** Modelled from the spec: construction followed by substitution.
    PatternRewriter::replaceOpWithNewOp: create, then replaceOp. *)
Definition replaceOpWithNewOp (op : PowFOp) (newOp : M Value) : M unit :=
  v <- newOp ;; replaceOp op v.

(** Modelled from the spec: the operation an operand refers to.
    Value::getDefiningOp. *)
Definition getDefiningOp (v : Value) (ops : list Operation) : option Operation :=
  match v with
  | BlockArgument _ _ => None
  | OpResult id _ => find (fun o => opId o =? id) ops
  end.

(** Modelled from the spec: constant inspection, "given an operand, determine
    if it denotes a compile-time scalar constant ... or a compile-time vector
    constant".  matchPattern(value, m_Constant(&attr)): the value is defined
    by a constant operation whose attribute has the type asked for. *)
Definition m_Constant_FloatAttr (v : Value) : M (option FloatAttr) :=
  fun rw =>
    (match getDefiningOp v (block rw) with
     | Some o => match kind o with Constant (AFloat a) => Some a | _ => None end
     | None => None
     end, rw).

Definition m_Constant_DenseFPElementsAttr (v : Value)
  : M (option DenseFPElementsAttr) :=
  fun rw =>
    (match getDefiningOp v (block rw) with
     | Some o => match kind o with Constant (ADenseFP d) => Some d | _ => None end
     | None => None
     end, rw).

(** Modelled from the spec: RewriteOutcome, "either Rewritten ... or NoMatch";
    mlir::LogicalResult, with success() and failure(). *)
Inductive LogicalResult := success | failure.

End Rewriter.
Import Rewriter.
Local Open Scope rewriter_scope.

(* ------------------------------------------------------------------------- *)
(** ** PowFStrengthReduction *)
(* ------------------------------------------------------------------------- *)

(** The lambda [isExponentValue]; [scalarExponent] and [vectorExponent] are
    bound when [isScalar] and [isVector] hold. *)
Definition isExponentValue (scalarExponent : option FloatAttr)
    (vectorExponent : option DenseFPElementsAttr) (value : float) : bool :=
  match scalarExponent with
  | Some scalarExponent => isExactlyValue (getValue scalarExponent) value
  | None =>
      match vectorExponent with
      | Some vectorExponent =>
          if isSplat vectorExponent
          then isExactlyValue (getValue (getSplatValue vectorExponent)) value
          else false
      | None => false
      end
  end.

(** The lambda [bcast]. *)
Definition bcast (op : PowFOp) (value : Value) : M Value :=
  match dyn_cast_VectorType (getType op) with
  | Some vec => create_BroadcastOp vec value
  | None => ret value
  end.

(** PowFStrengthReduction::matchAndRewrite.  Locations ([loc]) are not
    modelled; [isScalar] and [isVector] are whether the two matches bind. *)
Definition matchAndRewrite (op : PowFOp) : M LogicalResult :=
  let x := lhs op in
  scalarExponent <- m_Constant_FloatAttr (rhs op) ;;
  vectorExponent <- m_Constant_DenseFPElementsAttr (rhs op) ;;
  let isExponentValue := isExponentValue scalarExponent vectorExponent in
  (* Replace `pow(x, 1.0)` with `x`. *)
  if isExponentValue 1.0%float then
    replaceOp op x ;;
    ret success
  (* Replace `pow(x, 2.0)` with `x * x`. *)
  else if isExponentValue 2.0%float then
    replaceOpWithNewOp op (create_MulFOp x x) ;;
    ret success
  (* Replace `pow(x, 2.0)` with `x * x * x`. *)
  else if isExponentValue 3.0%float then
    square <- create_MulFOp x x ;;
    replaceOpWithNewOp op (create_MulFOp x square) ;;
    ret success
  (* Replace `pow(x, -1.0)` with `1.0 / x`. *)
  else if isExponentValue (-1.0)%float then
    one <- create_ConstantOp
             (getFloatAttr (getElementTypeOrSelf (getType op)) 1.0%float) ;;
    b <- bcast op one ;;
    replaceOpWithNewOp op (create_DivFOp b x) ;;
    ret success
  (* Replace `pow(x, -2.0)` with `sqrt(x)`. *)
  else if isExponentValue (-1.0)%float then
    replaceOpWithNewOp op (create_SqrtOp x) ;;
    ret success
  else
    ret failure.

(* ------------------------------------------------------------------------- *)
(** ** The exponent, in the words of the spec *)
(* ------------------------------------------------------------------------- *)

(** Follows the spec (section 3, ExponentConstant; section 9, tagged variant):
    the statically known value of the exponent operand is a scalar value, a
    uniform value of a vector of [n] elements, or not a recognized constant. *)
Inductive ExponentConstant :=
| Scalar (c : APFloat)
| UniformVector (c : APFloat) (n : nat)
| NotConstant.

Definition classifyExponent (ops : list Operation) (exponent : Value)
  : ExponentConstant :=
  match getDefiningOp exponent ops with
  | Some o =>
      match kind o with
      | Constant (AFloat a) => Scalar (getValue a)
      | Constant (ADenseFP d) =>
          match elements d with
          | e :: rest =>
              if forallb (bitwiseIsEqual e) rest
              then UniformVector e (List.length (elements d))
              else NotConstant
          | [] => NotConstant
          end
      | _ => NotConstant
      end
  | None => NotConstant
  end.

Definition exponentValue (ops : list Operation) (exponent : Value)
  : option APFloat :=
  match classifyExponent ops exponent with
  | Scalar c | UniformVector c _ => Some c
  | NotConstant => None
  end.

(** The bit patterns of the keys of the rule table in semantics [s]:
    1.0 = 1.0 * 2^0, 2.0 = 1.0 * 2^1, 3.0 = 1.5 * 2^1, -1.0 = -(1.0 * 2^0). *)
Definition fpOne (s : fltSemantics) : APFloat :=
  mkAPFloat s (2 ^ (precision s - 1)) 0 fcNormal false.

Definition fpTwo (s : fltSemantics) : APFloat :=
  mkAPFloat s (2 ^ (precision s - 1)) 1 fcNormal false.

Definition fpThree (s : fltSemantics) : APFloat :=
  mkAPFloat s (3 * 2 ^ (precision s - 2)) 1 fcNormal false.

Definition fpMinusOne (s : fltSemantics) : APFloat :=
  mkAPFloat s (2 ^ (precision s - 1)) 0 fcNormal true.

(** The exponent operand of [op] is a scalar or uniform vector constant whose
    value has the bit pattern [key]. *)
Definition hasExponent (rw : PatternRewriter) (op : PowFOp)
    (key : fltSemantics -> APFloat) : Prop :=
  exists c, exponentValue (block rw) (rhs op) = Some c
            /\ c = key (getSemantics c).

Definition isRuleKey (c : APFloat) : Prop :=
  c = fpOne (getSemantics c) \/ c = fpTwo (getSemantics c)
  \/ c = fpThree (getSemantics c) \/ c = fpMinusOne (getSemantics c).

(** What the guards of the pattern evaluate to on [op] in the state [rw]. *)
Definition exponentIs (op : PowFOp) (rw : PatternRewriter) (value : float)
  : bool :=
  isExponentValue (fst (m_Constant_FloatAttr (rhs op) rw))
                  (fst (m_Constant_DenseFPElementsAttr (rhs op) rw)) value.

(* ------------------------------------------------------------------------- *)
(** ** The state a rewrite leaves *)
(* ------------------------------------------------------------------------- *)

(** The value a rewrite substitutes for the result of [op]: the result of the
    last operation it built, or the base [x] when it built none. *)
Definition replacementValue (op : PowFOp) (news : list Operation) : Value :=
  last (map getResult news) (lhs op).

(** The state after the operations [news] have been built, in this order, and
    [op] has been replaced. *)
Definition rewritten (op : PowFOp) (rw : PatternRewriter)
    (news : list Operation) : PatternRewriter :=
  mkRewriter
    (eraseOp (getOperation op)
       (map (replaceUsesOfWith (getResult (toOperation op))
                               (replacementValue op news))
            (fold_left (fun ops o => insertBefore (insertionPoint rw) o ops)
                       news (block rw))))
    (insertionPoint rw)
    (List.length news + nextId rw).

Definition mulOp (id : OpId) (a b : Value) : Operation :=
  mkOperation id MulF [a; b] (getValueType a).

Definition divOp (id : OpId) (a b : Value) : Operation :=
  mkOperation id DivF [a; b] (getValueType a).

Definition constantOp (id : OpId) (value : FloatAttr) : Operation :=
  mkOperation id (Constant (AFloat value)) [] (attrType value).

Definition broadcastOp (id : OpId) (vec : Type_) (source : Value) : Operation :=
  mkOperation id Broadcast [source] vec.

(** What each rule builds, with [n] the identity of the first new operation. *)
Definition squareOps (op : PowFOp) (n : OpId) : list Operation :=
  [mulOp n (lhs op) (lhs op)].

Definition cubeOps (op : PowFOp) (n : OpId) : list Operation :=
  let square := mulOp n (lhs op) (lhs op) in
  [square; mulOp (S n) (lhs op) (getResult square)].

Definition reciprocalOps (op : PowFOp) (n : OpId) : list Operation :=
  let one :=
    constantOp n (getFloatAttr (getElementTypeOrSelf (getType op)) 1.0%float) in
  match dyn_cast_VectorType (getType op) with
  | Some vec =>
      let b := broadcastOp (S n) vec (getResult one) in
      [one; b; divOp (S (S n)) (getResult b) (lhs op)]
  | None => [one; divOp (S n) (getResult one) (lhs op)]
  end.

(** The rule that fires, as the list of operations it builds. *)
Definition builtOps (op : PowFOp) (rw : PatternRewriter)
  : option (list Operation) :=
  if exponentIs op rw 1.0%float then Some []
  else if exponentIs op rw 2.0%float then Some (squareOps op (nextId rw))
  else if exponentIs op rw 3.0%float then Some (cubeOps op (nextId rw))
  else if exponentIs op rw (-1.0)%float then Some (reciprocalOps op (nextId rw))
  else None.

(** The kinds of operation the four rules build. *)
Definition builtKind (o : Operation) : bool :=
  match kind o with
  | MulF | DivF | Broadcast | Constant _ => true
  | PowF | Sqrt | OtherOp _ => false
  end.


(* ------------------------------------------------------------------------- *)
(** ** New operations and valid calls *)
(* ------------------------------------------------------------------------- *)

(** An operation of the program after a rewrite is new when no operation of
    the program before it has its identity. *)
Definition isNewIn (old : list Operation) (o : Operation) : bool :=
  negb (existsb (fun o0 => opId o0 =? opId o) old).

Definition newOps (old new : list Operation) : list Operation :=
  filter (isNewIn old) new.

(** What the driver guarantees when it hands [op] to the pattern: [op] is in
    the program, between [pre] and [post]; new operations go before [op]; the
    identities in use are below [nextId] and that of [op] is its own; [op]
    does not take its own result as base. *)
Record validCall (op : PowFOp) (rw : PatternRewriter)
    (pre post : list Operation) : Prop := mkValidCall {
  op_in_block : block rw = pre ++ toOperation op :: post;
  insert_at_op : insertionPoint rw = getOperation op;
  ids_below_next : Forall (fun o => opId o < nextId rw) (block rw);
  id_of_op_unique : Forall (fun o => opId o <> getOperation op) (pre ++ post);
  base_is_not_op : sameValue (lhs op) (getResult (toOperation op)) = false
}.

(* ------------------------------------------------------------------------- *)
(** ** Example programs *)
(* ------------------------------------------------------------------------- *)

Module Examples.

Definition f32 : Type_ := FloatTy F32.
Definition v4f32 : Type_ := VectorType [4] F32.

Definition f32Value (V : float) : APFloat :=
  convert IEEEsingle (APFloat_of_double V).

(** The double nearest to the decimal 1.0000001. *)
Definition nearlyOne : float := 0x1.000001ad7f29bp+0%float.

Definition returnOp (id : OpId) (v : Value) : Operation :=
  mkOperation id (OtherOp "return") [v] (getValueType v).

(** [%0 = constant c : f32;  %1 = powf %x, %0 : f32;  return %1]. *)
Definition scalarPow : PowFOp :=
  mkPowFOp 1 (BlockArgument 0 f32) (OpResult 0 f32) f32.

Definition scalarConstant (c : APFloat) : Operation :=
  constantOp 0 (mkFloatAttr f32 c).

Definition scalarProgram (c : APFloat) : PatternRewriter :=
  mkRewriter [scalarConstant c; toOperation scalarPow; returnOp 2 (OpResult 1 f32)]
             1 3.

(** [%0 = constant dense<cs> : vector<4xf32>;  %1 = powf %v, %0;  return %1]. *)
Definition vectorPow : PowFOp :=
  mkPowFOp 1 (BlockArgument 0 v4f32) (OpResult 0 v4f32) v4f32.

Definition vectorConstant (cs : list APFloat) : Operation :=
  mkOperation 0 (Constant (ADenseFP (mkDenseFP v4f32 cs))) [] v4f32.

Definition vectorProgram (cs : list APFloat) : PatternRewriter :=
  mkRewriter [vectorConstant cs; toOperation vectorPow; returnOp 2 (OpResult 1 v4f32)]
             1 3.

(** [%1 = powf %x, %y : f32;  return %1], the exponent a block argument. *)
Definition dynamicPow : PowFOp :=
  mkPowFOp 1 (BlockArgument 0 f32) (BlockArgument 1 f32) f32.

Definition dynamicProgram : PatternRewriter :=
  mkRewriter [toOperation dynamicPow; returnOp 2 (OpResult 1 f32)] 1 3.

(** [%0 = constant 1.0 : f32;  %1 = powf %x, %0 : f32;  return %1] with the
    base [%x] of type f64: the result type is not the type of the base. *)
Definition mismatchedPow : PowFOp :=
  mkPowFOp 1 (BlockArgument 0 (FloatTy F64)) (OpResult 0 f32) f32.

Definition mismatchedProgram : PatternRewriter :=
  mkRewriter [scalarConstant (fpOne IEEEsingle); toOperation mismatchedPow;
              returnOp 2 (OpResult 1 f32)] 1 3.

(** [%0 = constant 2.0;  %1 = constant 1.0;  %2 = powf %0, %1;
    %3 = powf %x, %2;  return %3]. *)
Definition innerPow : PowFOp :=
  mkPowFOp 2 (OpResult 0 f32) (OpResult 1 f32) f32.

Definition outerPow : PowFOp :=
  mkPowFOp 3 (BlockArgument 0 f32) (OpResult 2 f32) f32.

Definition nestedProgram : PatternRewriter :=
  mkRewriter [constantOp 0 (mkFloatAttr f32 (fpTwo IEEEsingle));
              constantOp 1 (mkFloatAttr f32 (fpOne IEEEsingle));
              toOperation innerPow; toOperation outerPow;
              returnOp 4 (OpResult 3 f32)] 2 5.




End Examples.
Import Examples.

(* ------------------------------------------------------------------------- *)
(** ** Properties of programs *)
(* ------------------------------------------------------------------------- *)

(** The operation [o] takes the value [v] as an operand. *)
Definition usesValue (v : Value) (o : Operation) : bool :=
  existsb (fun u => sameValue u v) (operands o).

(** The value [v] is a block argument or the result of one of the operations
    [defined]. *)
Definition definedIn (defined : list OpId) (v : Value) : bool :=
  match v with
  | BlockArgument _ _ => true
  | OpResult i _ => existsb (Nat.eqb i) defined
  end.

(** Definitions come before uses: every operand of an operation is a block
    argument, or the result of an operation of [defined] or of an earlier
    operation of the list. *)
Fixpoint inOrder (defined : list OpId) (ops : list Operation) : bool :=
  match ops with
  | [] => true
  | o :: rest =>
      forallb (definedIn defined) (operands o)
      && inOrder (opId o :: defined) rest
  end.

(** No two operations of the program have the same identity, and the
    identities in use are below the next one. *)
Definition wellFormedIds (rw : PatternRewriter) : Prop :=
  NoDup (map opId (block rw))
  /\ Forall (fun o => opId o < nextId rw) (block rw).

(** The operands of [o] have the type of its result (the trait
    SameOperandsAndResultType of the multiply and the divide). *)
Definition sameOperandsAndResultType (o : Operation) : Prop :=
  Forall (fun u => getValueType u = resultType o) (operands o).

Definition isPowF (o : Operation) : bool :=
  match kind o with PowF => true | _ => false end.

(* ------------------------------------------------------------------------- *)
(** ** Proofs *)
(* ------------------------------------------------------------------------- *)

Ltac unused :=
  repeat constructor; try assumption; apply Nat.eqb_neq; simpl; lia.

(* ------------------------------------------------------------------------- *)
(** ** Facts about floating-point values *)
(* ------------------------------------------------------------------------- *)

Lemma fltSemantics_eqb_eq a b : fltSemantics_eqb a b = true <-> a = b.
Proof. destruct a, b; simpl; split; congruence. Qed.

Lemma fltCategory_eqb_eq a b : fltCategory_eqb a b = true <-> a = b.
Proof. destruct a, b; simpl; split; congruence. Qed.

Lemma bitwiseIsEqual_refl a : bitwiseIsEqual a a = true.
Proof.
  unfold bitwiseIsEqual.
  replace (fltSemantics_eqb (getSemantics a) (getSemantics a)) with true
    by (symmetry; apply fltSemantics_eqb_eq; reflexivity).
  replace (fltCategory_eqb (category a) (category a)) with true
    by (symmetry; apply fltCategory_eqb_eq; reflexivity).
  rewrite Bool.eqb_reflx, !Z.eqb_refl. simpl.
  destruct (category a), (isFiniteNonZero a); reflexivity.
Qed.

(** On finite non-zero values bitwise equality is equality of all fields. *)
Lemma bitwiseIsEqual_normal a b :
  category b = fcNormal -> (bitwiseIsEqual a b = true <-> a = b).
Proof.
  intros Hb. split; [| intros ->; apply bitwiseIsEqual_refl].
  destruct a as [sa ma ea ca ga], b as [sb mb eb cb gb].
  unfold bitwiseIsEqual, isFiniteNonZero. simpl in *. subst cb.
  destruct (fltSemantics_eqb sa sb) eqn:Hs; simpl; [| discriminate].
  destruct (fltCategory_eqb ca fcNormal) eqn:Hc; simpl; [| discriminate].
  destruct (Bool.eqb ga gb) eqn:Hg; simpl; [| discriminate].
  apply fltSemantics_eqb_eq in Hs. apply fltCategory_eqb_eq in Hc.
  apply Bool.eqb_prop in Hg. subst. simpl.
  destruct (ea =? eb)%Z eqn:He; simpl; [| discriminate].
  intros Hm. apply Z.eqb_eq in He, Hm. subst. reflexivity.
Qed.

(** The rounding of [convert] on some known values: 1/3 as f32 is
    0x3EAAAAAB, 0.1 as f16 is 0x2E66, 1e-7 as f16 is the subnormal 0x0002,
    1e6 as f16 overflows, 1.0000001 as f16 is 1.0. *)
Example convert_examples :
  convert IEEEsingle (APFloat_of_double 0x1.5555555555555p-2%float)
  = mkAPFloat IEEEsingle 0xAAAAAB (-2) fcNormal false
  /\ convert IEEEhalf (APFloat_of_double 0x1.999999999999ap-4%float)
     = mkAPFloat IEEEhalf 0x666 (-4) fcNormal false
  /\ convert IEEEhalf (APFloat_of_double 0x1.ad7f29abcaf48p-24%float)
     = mkAPFloat IEEEhalf 2 (-14) fcNormal false
  /\ category (convert IEEEhalf (APFloat_of_double 1e6%float)) = fcInfinity
  /\ convert IEEEhalf (APFloat_of_double nearlyOne) = fpOne IEEEhalf.
Proof. repeat split; vm_compute; reflexivity. Qed.

(** The bit patterns of the keys are the integers 1, 2, 3 and -1 in every
    format, in the sense of the IEEE 754 specification of the Standard
    Library. *)
Lemma keys_are_integers s :
  let normalize := binary_normalize (precision s) (maxExponent s + 1) in
  toSpec (fpOne s) = normalize 1%Z 0%Z false
  /\ toSpec (fpTwo s) = normalize 2%Z 0%Z false
  /\ toSpec (fpThree s) = normalize 3%Z 0%Z false
  /\ toSpec (fpMinusOne s) = normalize (-1)%Z 0%Z false.
Proof. destruct s; vm_compute; repeat split; reflexivity. Qed.

(** The four literals of the pattern are represented exactly in every
    format, with the bit patterns above. *)
Lemma convert_one s : convert s (APFloat_of_double 1.0%float) = fpOne s.
Proof. destruct s; vm_compute; reflexivity. Qed.

Lemma convert_two s : convert s (APFloat_of_double 2.0%float) = fpTwo s.
Proof. destruct s; vm_compute; reflexivity. Qed.

Lemma convert_three s : convert s (APFloat_of_double 3.0%float) = fpThree s.
Proof. destruct s; vm_compute; reflexivity. Qed.

Lemma convert_minus_one s :
  convert s (APFloat_of_double (-1.0)%float) = fpMinusOne s.
Proof. destruct s; vm_compute; reflexivity. Qed.

Lemma isExactlyValue_one a :
  isExactlyValue a 1.0%float = true <-> a = fpOne (getSemantics a).
Proof.
  unfold isExactlyValue. rewrite convert_one.
  apply bitwiseIsEqual_normal. reflexivity.
Qed.

Lemma isExactlyValue_two a :
  isExactlyValue a 2.0%float = true <-> a = fpTwo (getSemantics a).
Proof.
  unfold isExactlyValue. rewrite convert_two.
  apply bitwiseIsEqual_normal. reflexivity.
Qed.

Lemma isExactlyValue_three a :
  isExactlyValue a 3.0%float = true <-> a = fpThree (getSemantics a).
Proof.
  unfold isExactlyValue. rewrite convert_three.
  apply bitwiseIsEqual_normal. reflexivity.
Qed.

Lemma isExactlyValue_minus_one a :
  isExactlyValue a (-1.0)%float = true <-> a = fpMinusOne (getSemantics a).
Proof.
  unfold isExactlyValue. rewrite convert_minus_one.
  apply bitwiseIsEqual_normal. reflexivity.
Qed.

Lemma fpOne_not_two s : fpOne s <> fpTwo s.
Proof. intros H. apply (f_equal exponent) in H. discriminate. Qed.

Lemma fpOne_not_three s : fpOne s <> fpThree s.
Proof. intros H. apply (f_equal exponent) in H. discriminate. Qed.

Lemma fpOne_not_minus_one s : fpOne s <> fpMinusOne s.
Proof. intros H. apply (f_equal sign) in H. discriminate. Qed.

Lemma fpTwo_not_three s : fpTwo s <> fpThree s.
Proof.
  intros H. apply (f_equal significand) in H. destruct s; vm_compute in H; discriminate.
Qed.

Lemma fpTwo_not_minus_one s : fpTwo s <> fpMinusOne s.
Proof. intros H. apply (f_equal sign) in H. discriminate. Qed.

Lemma fpThree_not_minus_one s : fpThree s <> fpMinusOne s.
Proof. intros H. apply (f_equal sign) in H. discriminate. Qed.

(* ------------------------------------------------------------------------- *)
(** ** The guards of the pattern *)
(* ------------------------------------------------------------------------- *)

(** The guards test the value that the spec's classification extracts. *)
Lemma exponentIs_exponentValue op rw V :
  exponentIs op rw V
  = match exponentValue (block rw) (rhs op) with
    | Some c => isExactlyValue c V
    | None => false
    end.
Proof.
  unfold exponentIs, exponentValue, classifyExponent, isExponentValue,
    m_Constant_FloatAttr, m_Constant_DenseFPElementsAttr. simpl.
  destruct (getDefiningOp (rhs op) (block rw)) as [o |]; [| reflexivity].
  destruct (kind o) as [| | | | | [a | d | n] | n]; try reflexivity.
  unfold isSplat, getSplatValue.
  destruct (elements d) as [| e rest]; [reflexivity |].
  destruct (forallb (bitwiseIsEqual e) rest); reflexivity.
Qed.

Lemma exponentIs_one op rw :
  exponentIs op rw 1.0%float = true <-> hasExponent rw op fpOne.
Proof.
  rewrite exponentIs_exponentValue. unfold hasExponent.
  destruct (exponentValue (block rw) (rhs op)) as [c |].
  - rewrite isExactlyValue_one. split.
    + intros H. exists c. split; [reflexivity | exact H].
    + intros (c' & Hc & H). injection Hc as <-. exact H.
  - split; [discriminate | intros (c' & Hc & _); discriminate].
Qed.

Lemma exponentIs_two op rw :
  exponentIs op rw 2.0%float = true <-> hasExponent rw op fpTwo.
Proof.
  rewrite exponentIs_exponentValue. unfold hasExponent.
  destruct (exponentValue (block rw) (rhs op)) as [c |].
  - rewrite isExactlyValue_two. split.
    + intros H. exists c. split; [reflexivity | exact H].
    + intros (c' & Hc & H). injection Hc as <-. exact H.
  - split; [discriminate | intros (c' & Hc & _); discriminate].
Qed.

Lemma exponentIs_three op rw :
  exponentIs op rw 3.0%float = true <-> hasExponent rw op fpThree.
Proof.
  rewrite exponentIs_exponentValue. unfold hasExponent.
  destruct (exponentValue (block rw) (rhs op)) as [c |].
  - rewrite isExactlyValue_three. split.
    + intros H. exists c. split; [reflexivity | exact H].
    + intros (c' & Hc & H). injection Hc as <-. exact H.
  - split; [discriminate | intros (c' & Hc & _); discriminate].
Qed.

Lemma exponentIs_minus_one op rw :
  exponentIs op rw (-1.0)%float = true <-> hasExponent rw op fpMinusOne.
Proof.
  rewrite exponentIs_exponentValue. unfold hasExponent.
  destruct (exponentValue (block rw) (rhs op)) as [c |].
  - rewrite isExactlyValue_minus_one. split.
    + intros H. exists c. split; [reflexivity | exact H].
    + intros (c' & Hc & H). injection Hc as <-. exact H.
  - split; [discriminate | intros (c' & Hc & _); discriminate].
Qed.

(** Two different keys never hold of the same exponent. *)
Lemma hasExponent_exclusive rw op k1 k2 :
  (forall s, k1 s <> k2 s) ->
  hasExponent rw op k1 -> ~ hasExponent rw op k2.
Proof.
  intros Hne (c & Hc & H1) (c' & Hc' & H2).
  rewrite Hc in Hc'. injection Hc' as <-.
  apply (Hne (getSemantics c)). congruence.
Qed.

(* ------------------------------------------------------------------------- *)
(** ** The pattern, run *)
(* ------------------------------------------------------------------------- *)

(** [matchAndRewrite], run: its fifth branch never runs, the other four
    leave the state [rewritten]. *)
Lemma matchAndRewrite_run op rw :
  matchAndRewrite op rw
  = match builtOps op rw with
    | Some news => (success, rewritten op rw news)
    | None => (failure, rw)
    end.
Proof.
  unfold builtOps, matchAndRewrite, bind, exponentIs,
    m_Constant_FloatAttr, m_Constant_DenseFPElementsAttr. simpl.
  set (s := match getDefiningOp (rhs op) (block rw) with
            | Some o => match kind o with
                        | Constant (AFloat a) => Some a | _ => None end
            | None => None end).
  set (v := match getDefiningOp (rhs op) (block rw) with
            | Some o => match kind o with
                        | Constant (ADenseFP d) => Some d | _ => None end
            | None => None end).
  destruct (isExponentValue s v 1.0%float); [reflexivity |].
  destruct (isExponentValue s v 2.0%float); [reflexivity |].
  destruct (isExponentValue s v 3.0%float); [reflexivity |].
  destruct (isExponentValue s v (-1.0)%float); [| reflexivity].
  unfold reciprocalOps, rewritten, replaceOpWithNewOp, bcast, bind.
  destruct (dyn_cast_VectorType (getType op)); reflexivity.
Qed.

Lemma builtOps_Some_iff op rw :
  (exists news, builtOps op rw = Some news)
  <-> match exponentValue (block rw) (rhs op) with
      | Some c => isRuleKey c
      | None => False
      end.
Proof.
  unfold builtOps. rewrite !exponentIs_exponentValue.
  destruct (exponentValue (block rw) (rhs op)) as [c |].
  - unfold isRuleKey.
    rewrite <- isExactlyValue_one, <- isExactlyValue_two,
      <- isExactlyValue_three, <- isExactlyValue_minus_one.
    destruct (isExactlyValue c 1.0%float); [split; eauto |].
    destruct (isExactlyValue c 2.0%float); [split; eauto |].
    destruct (isExactlyValue c 3.0%float); [split; eauto |].
    destruct (isExactlyValue c (-1.0)%float); [split; eauto |].
    split; [intros (news & H); discriminate |].
    intros [H | [H | [H | H]]]; discriminate.
  - split; [intros (news & H); discriminate | intros []].
Qed.

(* ------------------------------------------------------------------------- *)
(** ** Inserting, redirecting and erasing *)
(* ------------------------------------------------------------------------- *)

Section ListFacts.

Variables (from to : Value).

Let redirect := replaceUsesOfWith from to.

Lemma isNewIn_redirect old o : isNewIn old (redirect o) = isNewIn old o.
Proof. reflexivity. Qed.

Lemma isNewIn_old old o o' :
  In o old -> opId o' = opId o -> isNewIn old o' = false.
Proof.
  intros Hin Hid. unfold isNewIn. apply negb_false_iff, existsb_exists.
  exists o. split; [exact Hin | rewrite Hid; apply Nat.eqb_refl].
Qed.

Lemma isNewIn_fresh old n o :
  Forall (fun o0 => opId o0 < n) old -> n <= opId o -> isNewIn old o = true.
Proof.
  intros Hold Hn. unfold isNewIn. apply negb_true_iff.
  destruct (existsb (fun o0 => opId o0 =? opId o) old) eqn:E; [| reflexivity].
  apply existsb_exists in E. destruct E as (o0 & Hin & Heq).
  apply Nat.eqb_eq in Heq. rewrite Forall_forall in Hold.
  specialize (Hold o0 Hin). lia.
Qed.

Lemma newOps_app old a b : newOps old (a ++ b) = newOps old a ++ newOps old b.
Proof. apply filter_app. Qed.

Lemma newOps_of_old old l :
  incl l old -> newOps old (map redirect l) = [].
Proof.
  induction l as [| o l IH]; intros Hincl; [reflexivity |].
  unfold newOps in *. simpl.
  rewrite isNewIn_redirect, (@isNewIn_old old o o); try reflexivity.
  - apply IH. intros y Hy. apply Hincl. right. exact Hy.
  - apply Hincl. left. reflexivity.
Qed.

Lemma newOps_of_fresh old n l :
  Forall (fun o0 => opId o0 < n) old ->
  Forall (fun o => n <= opId o) l -> newOps old l = l.
Proof.
  intros Hold Hl. induction Hl as [| o l Ho Hl IH]; [reflexivity |].
  unfold newOps in *. simpl. rewrite (isNewIn_fresh o Hold Ho), IH. reflexivity.
Qed.

Lemma insertBefore_at ip t pre o post :
  opId o = ip -> Forall (fun o' => opId o' <> ip) pre ->
  insertBefore ip t (pre ++ o :: post) = pre ++ t :: o :: post.
Proof.
  intros Ho Hpre. induction Hpre as [| p pre Hp Hpre IH]; simpl.
  - rewrite Ho, Nat.eqb_refl. reflexivity.
  - apply Nat.eqb_neq in Hp. rewrite Hp, IH. reflexivity.
Qed.

Lemma insertAll_at ip news : forall pre o post,
  opId o = ip -> Forall (fun o' => opId o' <> ip) pre ->
  Forall (fun o' => opId o' <> ip) news ->
  fold_left (fun ops t => insertBefore ip t ops) news (pre ++ o :: post)
  = pre ++ news ++ o :: post.
Proof.
  induction news as [| t news IH]; intros pre o post Ho Hpre Hnews;
    [reflexivity |].
  apply Forall_cons_iff in Hnews. destruct Hnews as [Ht Hnews']. simpl.
  rewrite insertBefore_at by assumption.
  change (pre ++ t :: o :: post) with (pre ++ [t] ++ o :: post).
  rewrite app_assoc, IH; try assumption.
  - rewrite <- app_assoc. reflexivity.
  - apply Forall_app. split; [assumption | constructor; [assumption | constructor]].
Qed.

Lemma eraseOp_keep id l :
  Forall (fun o => opId o <> id) l -> eraseOp id l = l.
Proof.
  intros H. induction H as [| o l Ho H IH]; [reflexivity |].
  unfold eraseOp in *. simpl. apply Nat.eqb_neq in Ho. rewrite Ho, IH. reflexivity.
Qed.

Lemma eraseOp_at id a o b :
  opId o = id -> eraseOp id (a ++ o :: b) = eraseOp id a ++ eraseOp id b.
Proof.
  intros Ho. unfold eraseOp. rewrite filter_app. simpl.
  rewrite Ho, Nat.eqb_refl. reflexivity.
Qed.

Lemma redirect_keeps_ids id l :
  Forall (fun o => opId o <> id) l ->
  Forall (fun o => opId o <> id) (map redirect l).
Proof.
  intros H. induction H; simpl; constructor; assumption.
Qed.

Lemma In_insertBefore ip t l o :
  In o (insertBefore ip t l) -> o = t \/ In o l.
Proof.
  induction l as [| p l IH]; simpl.
  - intros [H | []]. left. symmetry. exact H.
  - destruct (opId p =? ip); simpl.
    + intros [H | H]; [left; symmetry; exact H | right; exact H].
    + intros [H | H]; [right; left; exact H |].
      destruct (IH H) as [H' | H']; [left | right; right]; exact H'.
Qed.

Lemma In_insertAll ip news : forall l o,
  In o (fold_left (fun ops t => insertBefore ip t ops) news l) ->
  In o news \/ In o l.
Proof.
  induction news as [| t news IH]; intros l o H; simpl in *.
  - right. exact H.
  - destruct (IH _ _ H) as [H' | H']; [left; right; exact H' |].
    destruct (In_insertBefore _ _ _ _ H') as [-> | H''];
      [left; left; reflexivity | right; exact H''].
Qed.

Lemma count_insertBefore (p : Operation -> bool) ip t l :
  List.length (filter p (insertBefore ip t l))
  = List.length (filter p [t]) + List.length (filter p l).
Proof.
  induction l as [| o l IH]; simpl.
  - destruct (p t); simpl; lia.
  - destruct (opId o =? ip); simpl.
    + destruct (p t), (p o); simpl; lia.
    + destruct (p o); simpl in *; rewrite IH; destruct (p t); simpl; lia.
Qed.

Lemma count_insertAll (p : Operation -> bool) ip news : forall l,
  List.length (filter p (fold_left (fun ops t => insertBefore ip t ops) news l))
  = List.length (filter p news) + List.length (filter p l).
Proof.
  induction news as [| t news IH]; intros l; simpl; [reflexivity |].
  rewrite IH, count_insertBefore. simpl. destruct (p t); simpl; lia.
Qed.

Lemma count_eraseOp (p : Operation -> bool) id l :
  List.length (filter p (eraseOp id l)) <= List.length (filter p l).
Proof.
  unfold eraseOp. induction l as [| o l IH]; simpl; [lia |].
  destruct (opId o =? id); simpl; destruct (p o); simpl; lia.
Qed.

Lemma count_redirect (p : Operation -> bool) l :
  (forall o, p (redirect o) = p o) ->
  List.length (filter p (map redirect l)) = List.length (filter p l).
Proof.
  intros Hp. induction l as [| o l IH]; simpl; [reflexivity |].
  rewrite Hp. destruct (p o); simpl; rewrite IH; reflexivity.
Qed.

Lemma count_new_in_old old l :
  incl l old -> List.length (filter (isNewIn old) l) = 0.
Proof.
  induction l as [| o l IH]; intros Hincl; simpl; [reflexivity |].
  rewrite (@isNewIn_old old o o); try reflexivity.
  - apply IH. intros y Hy. apply Hincl. right. exact Hy.
  - apply Hincl. left. reflexivity.
Qed.

End ListFacts.

(* ------------------------------------------------------------------------- *)
(** ** The program after a rewrite *)
(* ------------------------------------------------------------------------- *)

Lemma validCall_id_below op rw pre post :
  validCall op rw pre post -> getOperation op < nextId rw.
Proof.
  intros [Hb _ Hids _ _]. rewrite Hb in Hids.
  apply Forall_app in Hids. destruct Hids as [_ Hids].
  apply Forall_cons_iff in Hids. exact (proj1 Hids).
Qed.

Lemma validCall_incl_pre op rw pre post :
  validCall op rw pre post -> incl pre (block rw).
Proof.
  intros [Hb _ _ _ _] o Ho. rewrite Hb. apply in_or_app. left. exact Ho.
Qed.

Lemma validCall_incl_post op rw pre post :
  validCall op rw pre post -> incl post (block rw).
Proof.
  intros [Hb _ _ _ _] o Ho. rewrite Hb. apply in_or_app. right. right. exact Ho.
Qed.

(** In a valid call the new operations take the place of [op]. *)
Lemma rewritten_in_place op rw pre post news :
  validCall op rw pre post ->
  Forall (fun o => nextId rw <= opId o) news ->
  let redirect := replaceUsesOfWith (getResult (toOperation op))
                                    (replacementValue op news) in
  rewritten op rw news
  = mkRewriter (map redirect pre ++ map redirect news ++ map redirect post)
               (getOperation op) (List.length news + nextId rw).
Proof.
  intros Hv Hnews redirect.
  pose proof (validCall_id_below Hv) as Hlt.
  destruct Hv as [Hb Hip Hids Huniq Hself].
  apply Forall_app in Huniq. destruct Huniq as [Hpre Hpost].
  assert (Hnews' : Forall (fun o => opId o <> getOperation op) news).
  { eapply Forall_impl; [| exact Hnews]. simpl. intros o Ho. lia. }
  unfold rewritten. rewrite Hb, Hip.
  rewrite insertAll_at by (try assumption; reflexivity).
  fold redirect. rewrite !map_app. simpl map.
  rewrite app_assoc, eraseOp_at by reflexivity.
  rewrite !eraseOp_keep.
  - rewrite <- app_assoc. reflexivity.
  - apply redirect_keeps_ids. exact Hpost.
  - apply Forall_app. split; apply redirect_keeps_ids; assumption.
Qed.

Lemma newOps_in_place op rw pre post from to news :
  validCall op rw pre post ->
  Forall (fun o => nextId rw <= opId o) news ->
  newOps (block rw)
    (map (replaceUsesOfWith from to) pre ++ news
     ++ map (replaceUsesOfWith from to) post) = news.
Proof.
  intros Hv Hnews. rewrite !newOps_app.
  rewrite (newOps_of_old _ _ (validCall_incl_pre Hv)).
  rewrite (newOps_of_old _ _ (validCall_incl_post Hv)).
  rewrite (newOps_of_fresh (ids_below_next Hv) Hnews).
  rewrite app_nil_r. reflexivity.
Qed.

Lemma redirect_unused from to o :
  Forall (fun v => sameValue v from = false) (operands o) ->
  replaceUsesOfWith from to o = o.
Proof.
  destruct o as [id k args ty]. unfold replaceUsesOfWith. simpl.
  intros H. f_equal. induction H as [| v args Hv H IH]; simpl; [reflexivity |].
  rewrite Hv, IH. reflexivity.
Qed.

(** Which rule fires. *)
Lemma builtOps_one op rw :
  hasExponent rw op fpOne -> builtOps op rw = Some [].
Proof.
  intros H. apply exponentIs_one in H. unfold builtOps. rewrite H. reflexivity.
Qed.

Lemma builtOps_two op rw :
  hasExponent rw op fpTwo ->
  builtOps op rw = Some (squareOps op (nextId rw)).
Proof.
  intros H. unfold builtOps.
  destruct (exponentIs op rw 1.0%float) eqn:E1.
  - apply exponentIs_one in E1.
    destruct (hasExponent_exclusive fpOne_not_two E1 H).
  - apply exponentIs_two in H. rewrite H. reflexivity.
Qed.

Lemma builtOps_three op rw :
  hasExponent rw op fpThree ->
  builtOps op rw = Some (cubeOps op (nextId rw)).
Proof.
  intros H. unfold builtOps.
  destruct (exponentIs op rw 1.0%float) eqn:E1.
  { apply exponentIs_one in E1.
    destruct (hasExponent_exclusive fpOne_not_three E1 H). }
  destruct (exponentIs op rw 2.0%float) eqn:E2.
  { apply exponentIs_two in E2.
    destruct (hasExponent_exclusive fpTwo_not_three E2 H). }
  apply exponentIs_three in H. rewrite H. reflexivity.
Qed.

Lemma builtOps_minus_one op rw :
  hasExponent rw op fpMinusOne ->
  builtOps op rw = Some (reciprocalOps op (nextId rw)).
Proof.
  intros H. unfold builtOps.
  destruct (exponentIs op rw 1.0%float) eqn:E1.
  { apply exponentIs_one in E1.
    destruct (hasExponent_exclusive fpOne_not_minus_one E1 H). }
  destruct (exponentIs op rw 2.0%float) eqn:E2.
  { apply exponentIs_two in E2.
    destruct (hasExponent_exclusive fpTwo_not_minus_one E2 H). }
  destruct (exponentIs op rw 3.0%float) eqn:E3.
  { apply exponentIs_three in E3.
    destruct (hasExponent_exclusive fpThree_not_minus_one E3 H). }
  apply exponentIs_minus_one in H. rewrite H. reflexivity.
Qed.

(** The constant the reciprocal rule materializes is the value 1.0 of the
    element type. *)
Lemma getFloatAttr_one t :
  getFloatAttr (FloatTy t) 1.0%float
  = mkFloatAttr (FloatTy t) (fpOne (getFloatSemantics t)).
Proof. destruct t; vm_compute; reflexivity. Qed.

Lemma scalarProgram_valid c :
  validCall scalarPow (scalarProgram c)
    [scalarConstant c] [returnOp 2 (OpResult 1 f32)].
Proof.
  constructor; try reflexivity.
  - repeat constructor.
  - repeat constructor; discriminate.
Qed.

Lemma vectorProgram_valid cs :
  validCall vectorPow (vectorProgram cs)
    [vectorConstant cs] [returnOp 2 (OpResult 1 v4f32)].
Proof.
  constructor; try reflexivity.
  - repeat constructor.
  - repeat constructor; discriminate.
Qed.

Lemma scalarProgram_exponent c :
  exponentValue (block (scalarProgram c)) (rhs scalarPow) = Some c.
Proof. reflexivity. Qed.

(* ------------------------------------------------------------------------- *)
(** ** The four rules *)
(* ------------------------------------------------------------------------- *)

(** C2. When the exponent is the constant 1.0 (scalar or uniform vector),
    [matchAndRewrite] returns success, every use of the result of the
    operation becomes a use of the base [x], the operation is erased, and the
    program holds no new operation. *)
Theorem pow_one_is_base (op : PowFOp) (rw : PatternRewriter) :
  hasExponent rw op fpOne ->
  let redirect := replaceUsesOfWith (getResult (toOperation op)) (lhs op) in
  let program := eraseOp (getOperation op) (map redirect (block rw)) in
  matchAndRewrite op rw
  = (success, mkRewriter program (insertionPoint rw) (nextId rw))
  /\ newOps (block rw) program = [].
Proof.
  intros H redirect program. split.
  - rewrite matchAndRewrite_run, (builtOps_one H). reflexivity.
  - apply length_zero_iff_nil. unfold newOps, program.
    pose proof (count_eraseOp (isNewIn (block rw)) (getOperation op)
                  (map redirect (block rw))) as Hle.
    unfold redirect in Hle.
    rewrite count_redirect in Hle by reflexivity.
    rewrite (count_new_in_old (incl_refl (block rw))) in Hle.
    unfold redirect. lia.
Qed.

Lemma pow_one_is_base_witness :
  hasExponent (scalarProgram (fpOne IEEEsingle)) scalarPow fpOne
  /\ matchAndRewrite scalarPow (scalarProgram (fpOne IEEEsingle))
     = (success,
        mkRewriter [scalarConstant (fpOne IEEEsingle);
                    returnOp 2 (BlockArgument 0 f32)] 1 3).
Proof.
  assert (H : hasExponent (scalarProgram (fpOne IEEEsingle)) scalarPow fpOne).
  { exists (fpOne IEEEsingle). split; reflexivity. }
  split; [exact H |].
  exact (proj1 (pow_one_is_base H)).
Defined.

(** C3. When the exponent is the constant 2.0, [matchAndRewrite] returns
    success and the operation is replaced by the single multiply [x * x]:
    it stands where the operation stood, the uses of the old result are uses
    of its result, and it is the one new operation of the program. *)
Theorem pow_two_is_square (op : PowFOp) (rw : PatternRewriter)
    (pre post : list Operation) :
  validCall op rw pre post ->
  hasExponent rw op fpTwo ->
  let x := lhs op in
  let t := mulOp (nextId rw) x x in
  let redirect := replaceUsesOfWith (getResult (toOperation op)) (getResult t) in
  let program := map redirect pre ++ t :: map redirect post in
  matchAndRewrite op rw
  = (success, mkRewriter program (getOperation op) (S (nextId rw)))
  /\ newOps (block rw) program = [t].
Proof.
  intros Hv H x t redirect program.
  pose proof (validCall_id_below Hv) as Hlt.
  pose proof (base_is_not_op Hv) as Hx.
  assert (Hnew : Forall (fun o => nextId rw <= opId o) [t])
    by (repeat constructor).
  split.
  - rewrite matchAndRewrite_run, (builtOps_two H).
    change (squareOps op (nextId rw)) with [t].
    rewrite (rewritten_in_place Hv Hnew). simpl.
    rewrite (@redirect_unused _ _ t) by unused.
    reflexivity.
  - apply (newOps_in_place _ _ Hv Hnew).
Qed.

Lemma pow_two_is_square_witness :
  validCall scalarPow (scalarProgram (fpTwo IEEEsingle))
    [scalarConstant (fpTwo IEEEsingle)] [returnOp 2 (OpResult 1 f32)]
  /\ hasExponent (scalarProgram (fpTwo IEEEsingle)) scalarPow fpTwo
  /\ matchAndRewrite scalarPow (scalarProgram (fpTwo IEEEsingle))
     = (success,
        mkRewriter [scalarConstant (fpTwo IEEEsingle);
                    mulOp 3 (BlockArgument 0 f32) (BlockArgument 0 f32);
                    returnOp 2 (OpResult 3 f32)] 1 4).
Proof.
  assert (H : hasExponent (scalarProgram (fpTwo IEEEsingle)) scalarPow fpTwo).
  { exists (fpTwo IEEEsingle). split; reflexivity. }
  split; [apply scalarProgram_valid | split; [exact H |]].
  exact (proj1 (pow_two_is_square (scalarProgram_valid _) H)).
Defined.

(** C4. When the exponent is the constant 3.0, [matchAndRewrite] returns
    success and the operation is replaced by [x * (x * x)]: two new
    multiplies, the first the square [x * x], the second taking [x] and the
    result of the first. *)
Theorem pow_three_is_cube (op : PowFOp) (rw : PatternRewriter)
    (pre post : list Operation) :
  validCall op rw pre post ->
  hasExponent rw op fpThree ->
  let x := lhs op in
  let square := mulOp (nextId rw) x x in
  let t := mulOp (S (nextId rw)) x (getResult square) in
  let redirect := replaceUsesOfWith (getResult (toOperation op)) (getResult t) in
  let program := map redirect pre ++ square :: t :: map redirect post in
  matchAndRewrite op rw
  = (success, mkRewriter program (getOperation op) (S (S (nextId rw))))
  /\ newOps (block rw) program = [square; t].
Proof.
  intros Hv H x square t redirect program.
  pose proof (validCall_id_below Hv) as Hlt.
  pose proof (base_is_not_op Hv) as Hx.
  assert (Hnew : Forall (fun o => nextId rw <= opId o) [square; t])
    by (repeat constructor; simpl; lia).
  split.
  - rewrite matchAndRewrite_run, (builtOps_three H).
    change (cubeOps op (nextId rw)) with [square; t].
    rewrite (rewritten_in_place Hv Hnew). simpl.
    rewrite (@redirect_unused _ _ square) by unused.
    rewrite (@redirect_unused _ _ t) by unused.
    reflexivity.
  - apply (newOps_in_place _ _ Hv Hnew).
Qed.

Lemma pow_three_is_cube_witness :
  validCall scalarPow (scalarProgram (fpThree IEEEsingle))
    [scalarConstant (fpThree IEEEsingle)] [returnOp 2 (OpResult 1 f32)]
  /\ hasExponent (scalarProgram (fpThree IEEEsingle)) scalarPow fpThree
  /\ matchAndRewrite scalarPow (scalarProgram (fpThree IEEEsingle))
     = (success,
        mkRewriter [scalarConstant (fpThree IEEEsingle);
                    mulOp 3 (BlockArgument 0 f32) (BlockArgument 0 f32);
                    mulOp 4 (BlockArgument 0 f32) (OpResult 3 f32);
                    returnOp 2 (OpResult 4 f32)] 1 5).
Proof.
  assert (H : hasExponent (scalarProgram (fpThree IEEEsingle)) scalarPow fpThree).
  { exists (fpThree IEEEsingle). split; reflexivity. }
  split; [apply scalarProgram_valid | split; [exact H |]].
  exact (proj1 (pow_three_is_cube (scalarProgram_valid _) H)).
Defined.

(** C5. When the exponent is the constant -1.0, [matchAndRewrite] returns
    success and the operation is replaced by the division [1.0 / x], the
    constant 1.0 materialized at the element type.  When the result type is a
    vector the constant is broadcast to that vector type and the broadcast is
    the dividend; when the result type is scalar the constant itself is the
    dividend and no broadcast is built. *)
Theorem pow_minus_one_is_reciprocal (op : PowFOp) (rw : PatternRewriter)
    (pre post : list Operation) :
  validCall op rw pre post ->
  hasExponent rw op fpMinusOne ->
  let x := lhs op in
  let n := nextId rw in
  match getType op with
  | VectorType shape elt =>
      let one :=
        constantOp n (mkFloatAttr (FloatTy elt) (fpOne (getFloatSemantics elt))) in
      let b := broadcastOp (S n) (VectorType shape elt) (getResult one) in
      let t := divOp (S (S n)) (getResult b) x in
      let redirect :=
        replaceUsesOfWith (getResult (toOperation op)) (getResult t) in
      let program := map redirect pre ++ one :: b :: t :: map redirect post in
      matchAndRewrite op rw
      = (success, mkRewriter program (getOperation op) (S (S (S n))))
      /\ newOps (block rw) program = [one; b; t]
  | FloatTy elt =>
      let one :=
        constantOp n (mkFloatAttr (FloatTy elt) (fpOne (getFloatSemantics elt))) in
      let t := divOp (S n) (getResult one) x in
      let redirect :=
        replaceUsesOfWith (getResult (toOperation op)) (getResult t) in
      let program := map redirect pre ++ one :: t :: map redirect post in
      matchAndRewrite op rw
      = (success, mkRewriter program (getOperation op) (S (S n)))
      /\ newOps (block rw) program = [one; t]
  end.
Proof.
  intros Hv H x n.
  pose proof (validCall_id_below Hv) as Hlt.
  pose proof (base_is_not_op Hv) as Hx.
  rewrite matchAndRewrite_run, (builtOps_minus_one H).
  unfold reciprocalOps. fold n. fold x.
  destruct (getType op) as [elt | shape elt] eqn:Hty; simpl dyn_cast_VectorType;
    simpl getElementTypeOrSelf; rewrite getFloatAttr_one; cbv zeta.
  - set (one := constantOp n _). set (t := divOp (S n) (getResult one) x).
    assert (Hnew : Forall (fun o => nextId rw <= opId o) [one; t])
      by (repeat constructor; simpl; lia).
    split; [| apply (newOps_in_place _ _ Hv Hnew)].
    rewrite (rewritten_in_place Hv Hnew). simpl.
    rewrite (@redirect_unused _ _ t) by (subst n; unused).
    reflexivity.
  - set (one := constantOp n _).
    set (b := broadcastOp (S n) (VectorType shape elt) (getResult one)).
    set (t := divOp (S (S n)) (getResult b) x).
    assert (Hnew : Forall (fun o => nextId rw <= opId o) [one; b; t])
      by (repeat constructor; simpl; lia).
    split; [| apply (newOps_in_place _ _ Hv Hnew)].
    rewrite (rewritten_in_place Hv Hnew). simpl.
    rewrite (@redirect_unused _ _ b) by (subst n; unused).
    rewrite (@redirect_unused _ _ t) by (subst n; unused).
    reflexivity.
Qed.

Lemma pow_minus_one_is_reciprocal_witness :
  let cs := repeat (fpMinusOne IEEEsingle) 4 in
  let v := BlockArgument 0 v4f32 in
  validCall vectorPow (vectorProgram cs)
    [vectorConstant cs] [returnOp 2 (OpResult 1 v4f32)]
  /\ hasExponent (vectorProgram cs) vectorPow fpMinusOne
  /\ matchAndRewrite vectorPow (vectorProgram cs)
     = (success,
        mkRewriter [vectorConstant cs;
                    constantOp 3 (mkFloatAttr f32 (fpOne IEEEsingle));
                    broadcastOp 4 v4f32 (OpResult 3 f32);
                    divOp 5 (OpResult 4 v4f32) v;
                    returnOp 2 (OpResult 5 v4f32)] 1 6).
Proof.
  intros cs v.
  assert (H : hasExponent (vectorProgram cs) vectorPow fpMinusOne).
  { exists (fpMinusOne IEEEsingle). split; reflexivity. }
  split; [apply vectorProgram_valid | split; [exact H |]].
  exact (proj1 (pow_minus_one_is_reciprocal (vectorProgram_valid cs) H)).
Defined.

(** The scalar case of the reciprocal rule on the example program: a
    constant and a divide, no broadcast. *)
Example scalar_reciprocal :
  matchAndRewrite scalarPow (scalarProgram (fpMinusOne IEEEsingle))
  = (success,
     mkRewriter [scalarConstant (fpMinusOne IEEEsingle);
                 constantOp 3 (mkFloatAttr f32 (fpOne IEEEsingle));
                 divOp 4 (OpResult 3 f32) (BlockArgument 0 f32);
                 returnOp 2 (OpResult 4 f32)] 1 5).
Proof. vm_compute. reflexivity. Qed.

(* ------------------------------------------------------------------------- *)
(** ** What a rewrite builds, whatever the rule *)
(* ------------------------------------------------------------------------- *)

Lemma builtOps_cases op rw news :
  builtOps op rw = Some news ->
  news = [] \/ news = squareOps op (nextId rw)
  \/ news = cubeOps op (nextId rw) \/ news = reciprocalOps op (nextId rw).
Proof.
  unfold builtOps.
  destruct (exponentIs op rw 1.0%float); [intros [= <-]; auto |].
  destruct (exponentIs op rw 2.0%float); [intros [= <-]; auto |].
  destruct (exponentIs op rw 3.0%float); [intros [= <-]; auto |].
  destruct (exponentIs op rw (-1.0)%float); [intros [= <-]; auto 6 | discriminate].
Qed.

Lemma builtOps_kinds op rw news :
  builtOps op rw = Some news -> Forall (fun o => builtKind o = true) news.
Proof.
  intros H. destruct (builtOps_cases _ _ H) as [-> | [-> | [-> | ->]]];
    unfold squareOps, cubeOps, reciprocalOps;
    try destruct (dyn_cast_VectorType (getType op));
    repeat constructor.
Qed.

Lemma builtOps_fresh op rw news :
  builtOps op rw = Some news -> Forall (fun o => nextId rw <= opId o) news.
Proof.
  intros H. destruct (builtOps_cases _ _ H) as [-> | [-> | [-> | ->]]];
    unfold squareOps, cubeOps, reciprocalOps;
    try destruct (dyn_cast_VectorType (getType op));
    repeat constructor; simpl; lia.
Qed.

Lemma builtOps_length op rw news :
  builtOps op rw = Some news -> List.length news <= 3.
Proof.
  intros H. destruct (builtOps_cases _ _ H) as [-> | [-> | [-> | ->]]];
    unfold squareOps, cubeOps, reciprocalOps;
    try destruct (dyn_cast_VectorType (getType op)); simpl; lia.
Qed.

Lemma reciprocalOps_length op n :
  List.length (reciprocalOps op n)
  = match getType op with VectorType _ _ => 3 | FloatTy _ => 2 end.
Proof. unfold reciprocalOps. destruct (getType op); reflexivity. Qed.

(** A property of operations that redirecting uses does not change is counted
    in the program after a rewrite at most as often as in the program before
    plus the operations built. *)
Lemma count_rewritten (p : Operation -> bool) op rw news :
  (forall from to o, p (replaceUsesOfWith from to o) = p o) ->
  List.length (filter p (block (rewritten op rw news)))
  <= List.length (filter p news) + List.length (filter p (block rw)).
Proof.
  intros Hp. unfold rewritten. simpl.
  etransitivity; [apply count_eraseOp |].
  rewrite count_redirect by (intros o; apply Hp).
  rewrite count_insertAll. lia.
Qed.

Lemma count_none (p : Operation -> bool) l :
  Forall (fun o => p o = false) l -> List.length (filter p l) = 0.
Proof.
  intros H. induction H as [| o l Ho H IH]; simpl; [reflexivity |].
  rewrite Ho. exact IH.
Qed.

(** Every new operation of the program after a rewrite is one of the
    operations built, with its uses redirected. *)
Lemma newOps_rewritten_In op rw news o :
  In o (newOps (block rw) (block (rewritten op rw news))) ->
  exists o0, In o0 news
    /\ o = replaceUsesOfWith (getResult (toOperation op))
                             (replacementValue op news) o0.
Proof.
  unfold newOps, rewritten, eraseOp. simpl. intros H.
  apply filter_In in H. destruct H as [H Hnew].
  apply filter_In in H. destruct H as [H _].
  apply in_map_iff in H. destruct H as (o0 & <- & H).
  apply In_insertAll in H. destruct H as [H | H].
  - exists o0. split; [exact H | reflexivity].
  - rewrite (@isNewIn_old (block rw) o0) in Hnew; [discriminate | exact H |].
    reflexivity.
Qed.

Lemma newOps_rewritten_length op rw news :
  List.length (newOps (block rw) (block (rewritten op rw news)))
  <= List.length news.
Proof.
  unfold newOps.
  etransitivity; [apply count_rewritten; reflexivity |].
  rewrite (count_new_in_old (incl_refl (block rw))).
  pose proof (filter_length_le (isNewIn (block rw)) news). lia.
Qed.

Lemma newOps_rewritten_valid op rw pre post news :
  validCall op rw pre post -> builtOps op rw = Some news ->
  List.length (newOps (block rw) (block (rewritten op rw news)))
  = List.length news.
Proof.
  intros Hv H. pose proof (builtOps_fresh _ _ H) as Hnew.
  rewrite (rewritten_in_place Hv Hnew). simpl.
  rewrite (@newOps_in_place op rw pre post _ _ _ Hv).
  - apply length_map.
  - apply Forall_forall. intros o Ho. apply in_map_iff in Ho.
    destruct Ho as (o0 & <- & Ho). rewrite Forall_forall in Hnew.
    apply (Hnew o0 Ho).
Qed.

Lemma newOps_unchanged l : newOps l l = [].
Proof.
  apply length_zero_iff_nil. apply count_new_in_old. apply incl_refl.
Qed.

(* ------------------------------------------------------------------------- *)
(** ** The square-root branch *)
(* ------------------------------------------------------------------------- *)

(** C6. [matchAndRewrite] never builds a square root: its outcome is always
    that of the first four rules, none of which builds one, so no new
    operation of the program is a square root and the program has no more
    square roots after the call than before. *)
Theorem sqrt_never_built (op : PowFOp) (rw : PatternRewriter) :
  let rw' := snd (matchAndRewrite op rw) in
  matchAndRewrite op rw
  = match builtOps op rw with
    | Some news => (success, rewritten op rw news)
    | None => (failure, rw)
    end
  /\ match builtOps op rw with
     | Some news => Forall (fun o => isSqrt o = false) news
     | None => True
     end
  /\ Forall (fun o => isSqrt o = false) (newOps (block rw) (block rw'))
  /\ List.length (filter isSqrt (block rw'))
     <= List.length (filter isSqrt (block rw)).
Proof.
  intros rw'. subst rw'. rewrite matchAndRewrite_run.
  split; [reflexivity |].
  destruct (builtOps op rw) as [news |] eqn:Hb; simpl.
  - assert (Hk : Forall (fun o => isSqrt o = false) news).
    { eapply Forall_impl; [| exact (builtOps_kinds _ _ Hb)].
      intros o. unfold builtKind, isSqrt. destruct (kind o); congruence. }
    split; [exact Hk | split].
    + apply Forall_forall. intros o Ho.
      apply newOps_rewritten_In in Ho. destruct Ho as (o0 & Hin & ->).
      rewrite Forall_forall in Hk. apply (Hk o0 Hin).
    + etransitivity; [apply count_rewritten; reflexivity |].
      rewrite (count_none _ Hk). lia.
  - split; [exact I | split; [| lia]].
    rewrite newOps_unchanged. constructor.
Qed.

(* ------------------------------------------------------------------------- *)
(** ** How many operations a rewrite builds *)
(* ------------------------------------------------------------------------- *)

(** C7, as the spec states it, fails: on a vector operation with exponent
    -1.0 the rewrite builds three operations, the constant, the broadcast and
    the divide. *)
Lemma at_most_two_new_ops_fails :
  ~ (forall op rw,
        List.length (newOps (block rw) (block (snd (matchAndRewrite op rw))))
        <= 2).
Proof.
  intros H.
  specialize (H vectorPow (vectorProgram (repeat (fpMinusOne IEEEsingle) 4))).
  vm_compute in H. lia.
Qed.

(** C7, amended. A call of [matchAndRewrite] builds at most three new
    operations; in a valid call it builds none for the exponent 1.0, one for
    2.0, two for 3.0, for -1.0 two when the result type is scalar (constant
    and divide) and three when it is a vector (constant, broadcast and
    divide), and none when it returns failure. *)
Theorem at_most_three_new_ops (op : PowFOp) (rw : PatternRewriter)
    (pre post : list Operation) :
  let built := newOps (block rw) (block (snd (matchAndRewrite op rw))) in
  List.length built <= 3
  /\ (validCall op rw pre post ->
      (hasExponent rw op fpOne -> List.length built = 0)
      /\ (hasExponent rw op fpTwo -> List.length built = 1)
      /\ (hasExponent rw op fpThree -> List.length built = 2)
      /\ (hasExponent rw op fpMinusOne ->
          List.length built
          = match getType op with VectorType _ _ => 3 | FloatTy _ => 2 end)
      /\ (fst (matchAndRewrite op rw) = failure -> List.length built = 0)).
Proof.
  intros built. subst built. rewrite matchAndRewrite_run. split.
  - destruct (builtOps op rw) as [news |] eqn:Hb; simpl.
    + etransitivity; [apply newOps_rewritten_length |].
      exact (builtOps_length _ _ Hb).
    + rewrite newOps_unchanged. simpl. lia.
  - intros Hv. repeat split; intros H.
    + rewrite (builtOps_one H). cbn [snd].
      rewrite (newOps_rewritten_valid Hv (builtOps_one H)). reflexivity.
    + rewrite (builtOps_two H). cbn [snd].
      rewrite (newOps_rewritten_valid Hv (builtOps_two H)). reflexivity.
    + rewrite (builtOps_three H). cbn [snd].
      rewrite (newOps_rewritten_valid Hv (builtOps_three H)). reflexivity.
    + rewrite (builtOps_minus_one H). cbn [snd].
      rewrite (newOps_rewritten_valid Hv (builtOps_minus_one H)).
      apply reciprocalOps_length.
    + destruct (builtOps op rw); [discriminate |]. simpl.
      rewrite newOps_unchanged. reflexivity.
Qed.

Lemma at_most_three_new_ops_witness :
  let cs := repeat (fpMinusOne IEEEsingle) 4 in
  validCall vectorPow (vectorProgram cs)
    [vectorConstant cs] [returnOp 2 (OpResult 1 v4f32)]
  /\ hasExponent (vectorProgram cs) vectorPow fpMinusOne
  /\ List.length
       (newOps (block (vectorProgram cs))
          (block (snd (matchAndRewrite vectorPow (vectorProgram cs))))) = 3.
Proof.
  intros cs.
  assert (H : hasExponent (vectorProgram cs) vectorPow fpMinusOne).
  { exists (fpMinusOne IEEEsingle). split; reflexivity. }
  split; [apply vectorProgram_valid | split; [exact H |]].
  destruct (at_most_three_new_ops vectorPow (vectorProgram cs)
              [vectorConstant cs] [returnOp 2 (OpResult 1 v4f32)])
    as [_ Hc].
  destruct (Hc (vectorProgram_valid cs)) as (_ & _ & _ & H3 & _).
  exact (H3 H).
Defined.

(* ------------------------------------------------------------------------- *)
(** ** Malformed operations *)
(* ------------------------------------------------------------------------- *)

(** C8, as the spec states it, fails: an operation whose result type differs
    from the type of its base is not refused; with the exponent 1.0 it is
    rewritten, and the program changes. *)
Lemma malformed_operation_is_rewritten :
  ~ (forall op rw,
        getValueType (lhs op) <> getType op ->
        fst (matchAndRewrite op rw) = failure
        /\ snd (matchAndRewrite op rw) = rw).
Proof.
  intros H.
  destruct (H mismatchedPow mismatchedProgram) as [Hf _]; [discriminate |].
  vm_compute in Hf. discriminate.
Qed.

(** C8, amended. [matchAndRewrite] checks no shape: whether it returns
    success or failure depends on the exponent operand and the program only,
    not on the base or on the result type; when a rule fires the operation
    is rewritten by it whatever the types of base and result; and when it
    returns failure the rewriter state is unchanged. *)
Theorem outcome_ignores_types (op op' : PowFOp) (rw : PatternRewriter) :
  rhs op = rhs op' ->
  fst (matchAndRewrite op rw) = fst (matchAndRewrite op' rw)
  /\ (fst (matchAndRewrite op rw) = failure ->
      snd (matchAndRewrite op rw) = rw)
  /\ (forall news, builtOps op rw = Some news ->
                   matchAndRewrite op rw = (success, rewritten op rw news)).
Proof.
  intros H.
  cut (fst (matchAndRewrite op rw) = fst (matchAndRewrite op' rw)
       /\ (fst (matchAndRewrite op rw) = failure ->
           snd (matchAndRewrite op rw) = rw)).
  { intros [H1 H2]. split; [exact H1 | split; [exact H2 |]].
    intros news Hb. rewrite matchAndRewrite_run, Hb. reflexivity. }
  rewrite !matchAndRewrite_run. unfold builtOps, exponentIs.
  rewrite H. split.
  - repeat match goal with
           | |- context [if ?b then _ else _] => destruct b
           end; reflexivity.
  - repeat match goal with
           | |- context [if ?b then _ else _] => destruct b
           end; simpl; congruence.
Qed.

Lemma outcome_ignores_types_witness :
  rhs mismatchedPow = rhs scalarPow
  /\ fst (matchAndRewrite mismatchedPow mismatchedProgram)
     = fst (matchAndRewrite scalarPow mismatchedProgram).
Proof.
  split; [reflexivity |].
  exact (proj1 (@outcome_ignores_types mismatchedPow scalarPow
                  mismatchedProgram eq_refl)).
Defined.

(* ------------------------------------------------------------------------- *)
(** ** Types *)
(* ------------------------------------------------------------------------- *)

Lemma attrType_getFloatAttr ty V : attrType (getFloatAttr ty V) = ty.
Proof. destruct ty as [[] |]; reflexivity. Qed.

(** C10. When the type of the base is the result type of the operation, the
    value a successful rewrite substitutes for the result has that type: the
    base itself, or the result of the last operation built; every operation
    built has the result type, except the constant of the reciprocal rule on
    a vector, which has its element type. *)
Theorem rewrite_preserves_type (op : PowFOp) (rw : PatternRewriter) :
  getValueType (lhs op) = getType op ->
  fst (matchAndRewrite op rw) = success ->
  exists news,
    builtOps op rw = Some news
    /\ matchAndRewrite op rw = (success, rewritten op rw news)
    /\ getValueType (replacementValue op news) = getType op
    /\ Forall (fun o => resultType o = getType op
                        \/ (builtKind o = true /\ operands o = []
                            /\ resultType o = getElementTypeOrSelf (getType op)))
              news.
Proof.
  intros Hty Hs. rewrite matchAndRewrite_run in *.
  destruct (builtOps op rw) as [news |] eqn:Hb; [| discriminate].
  exists news. split; [reflexivity | split; [reflexivity |]].
  destruct (builtOps_cases _ _ Hb) as [-> | [-> | [-> | ->]]];
    unfold replacementValue, squareOps, cubeOps, reciprocalOps.
  - split; [exact Hty | constructor].
  - simpl. split; [exact Hty | repeat constructor; exact Hty].
  - simpl. split; [exact Hty | repeat constructor; exact Hty].
  - destruct (getType op) as [t | shape t] eqn:E; cbn -[getFloatAttr];
      rewrite ?attrType_getFloatAttr.
    + split; [reflexivity |].
      repeat constructor; apply attrType_getFloatAttr.
    + split; [reflexivity |].
      constructor; [| repeat constructor].
      right. repeat split. apply attrType_getFloatAttr.
Qed.

Lemma rewrite_preserves_type_witness :
  getValueType (lhs vectorPow) = getType vectorPow
  /\ fst (matchAndRewrite vectorPow
            (vectorProgram (repeat (fpMinusOne IEEEsingle) 4))) = success
  /\ exists news,
       builtOps vectorPow (vectorProgram (repeat (fpMinusOne IEEEsingle) 4))
       = Some news
       /\ getValueType (replacementValue vectorPow news) = v4f32.
Proof.
  split; [reflexivity | split; [reflexivity |]].
  destruct (@rewrite_preserves_type vectorPow
              (vectorProgram (repeat (fpMinusOne IEEEsingle) 4))
              eq_refl eq_refl) as (news & Hb & _ & Ht & _).
  exists news. split; [exact Hb | exact Ht].
Defined.

(* ------------------------------------------------------------------------- *)
(** ** The match on example programs *)
(* ------------------------------------------------------------------------- *)

(** Exponents that are no key of the table: 0.5, 4.0, -3.0, -2.0 and
    1.0000001, as f32 constants. *)
Example unrecognized_values_do_not_match :
  Forall (fun V =>
            matchAndRewrite scalarPow (scalarProgram (f32Value V))
            = (failure, scalarProgram (f32Value V)))
         [0.5; 4.0; -3.0; -2.0; nearlyOne]%float.
Proof. repeat constructor. Qed.

Example non_constant_exponent_does_not_match :
  matchAndRewrite dynamicPow dynamicProgram = (failure, dynamicProgram).
Proof. reflexivity. Qed.

(** The vector constant [2.0, 3.0, 2.0, 3.0] is not uniform. *)
Example non_uniform_vector_does_not_match :
  let cs := [fpTwo IEEEsingle; fpThree IEEEsingle;
             fpTwo IEEEsingle; fpThree IEEEsingle] in
  matchAndRewrite vectorPow (vectorProgram cs) = (failure, vectorProgram cs).
Proof. reflexivity. Qed.

Example uniform_vector_matches :
  matchAndRewrite vectorPow (vectorProgram (repeat (fpTwo IEEEsingle) 4))
  = (success,
     mkRewriter [vectorConstant (repeat (fpTwo IEEEsingle) 4);
                 mulOp 3 (BlockArgument 0 v4f32) (BlockArgument 0 v4f32);
                 returnOp 2 (OpResult 3 v4f32)] 1 4).
Proof. reflexivity. Qed.



(* ------------------------------------------------------------------------- *)
(** ** More on the guards *)
(* ------------------------------------------------------------------------- *)



Lemma key_significand_positive s :
  exists m1 m3,
    (2 ^ (precision s - 1))%Z = Zpos m1
    /\ (3 * 2 ^ (precision s - 2))%Z = Zpos m3.
Proof. destruct s; eexists; eexists; split; vm_compute; reflexivity. Qed.

(** A finite non-zero value with a positive significand is determined by its
    format and its reading in the IEEE 754 specification. *)
Lemma toSpec_determines c s m e sg :
  getSemantics c = s ->
  toSpec c = toSpec (mkAPFloat s (Zpos m) e fcNormal sg) ->
  c = mkAPFloat s (Zpos m) e fcNormal sg.
Proof.
  destruct c as [s' m' e' cat sg']. unfold toSpec. simpl. intros ->.
  destruct cat; try discriminate.
  destruct m' as [| m' | m']; try discriminate.
  intros [= -> -> He]. f_equal. lia.
Qed.

(** X2. A constant passes the guard for 1.0, 2.0, 3.0 or -1.0 exactly when,
    read by the IEEE 754 specification of the Standard Library, it is the
    number 1, 2, 3 or -1 in its own format: the bit-exact test is numeric
    equality with the key, in every format. *)
Theorem exact_match_is_numeric_equality (c : APFloat) :
  let normalize :=
    binary_normalize (precision (getSemantics c))
                     (maxExponent (getSemantics c) + 1) in
  (isExactlyValue c 1.0%float = true <-> toSpec c = normalize 1%Z 0%Z false)
  /\ (isExactlyValue c 2.0%float = true <-> toSpec c = normalize 2%Z 0%Z false)
  /\ (isExactlyValue c 3.0%float = true <-> toSpec c = normalize 3%Z 0%Z false)
  /\ (isExactlyValue c (-1.0)%float = true
      <-> toSpec c = normalize (-1)%Z 0%Z false).
Proof.
  intros normalize. subst normalize.
  destruct (keys_are_integers (getSemantics c)) as (K1 & K2 & K3 & K4).
  destruct (key_significand_positive (getSemantics c)) as (m1 & m3 & P1 & P3).
  rewrite isExactlyValue_one, isExactlyValue_two, isExactlyValue_three,
    isExactlyValue_minus_one, <- K1, <- K2, <- K3, <- K4.
  unfold fpOne, fpTwo, fpThree, fpMinusOne. rewrite P1, P3.
  repeat split; intros H;
    try (rewrite H at 1; reflexivity);
    apply toSpec_determines; auto.
Qed.

Lemma isRuleKey_shape c :
  isRuleKey c ->
  category c = fcNormal /\ (exponent c = 0 \/ exponent c = 1)%Z.
Proof.
  intros [H | [H | [H | H]]]; rewrite H; simpl; auto.
Qed.

(** X3. A constant exponent that is a zero, an infinity or a NaN, or whose
    exponent field is below 0 or above 1 (a magnitude below 1, or of 4 and
    more), is never rewritten: [matchAndRewrite] returns failure and leaves
    the state as it is.  So pow(x, 0.0), pow(x, 0.5) and pow(x, 4.0) stay. *)
Theorem other_constants_are_kept (op : PowFOp) (rw : PatternRewriter)
    (c : APFloat) :
  exponentValue (block rw) (rhs op) = Some c ->
  category c <> fcNormal \/ (exponent c < 0)%Z \/ (1 < exponent c)%Z ->
  matchAndRewrite op rw = (failure, rw).
Proof.
  intros Hc Hout. rewrite matchAndRewrite_run.
  destruct (builtOps op rw) as [news |] eqn:Hb; [| reflexivity].
  exfalso.
  assert (Hk : isRuleKey c).
  { pose proof (proj1 (builtOps_Some_iff op rw)
                  (ex_intro _ news Hb)) as H.
    rewrite Hc in H. exact H. }
  destruct (isRuleKey_shape Hk) as [Hn He].
  destruct Hout as [H | [H | H]]; [contradiction | lia | lia].
Qed.

Lemma other_constants_are_kept_witness :
  let zero := mkAPFloat IEEEsingle 0 (-127) fcZero false in
  exponentValue (block (scalarProgram zero)) (rhs scalarPow) = Some zero
  /\ category zero <> fcNormal
  /\ matchAndRewrite scalarPow (scalarProgram zero)
     = (failure, scalarProgram zero).
Proof.
  intros zero.
  split; [reflexivity | split; [discriminate |]].
  apply (@other_constants_are_kept scalarPow (scalarProgram zero) zero
           eq_refl).
  left. discriminate.
Defined.

Lemma forallb_repeat_refl c n :
  forallb (bitwiseIsEqual c) (repeat c n) = true.
Proof.
  induction n as [| n IH]; simpl; [reflexivity |].
  rewrite bitwiseIsEqual_refl, IH. reflexivity.
Qed.

(** X4. A vector constant all of whose elements are the value [c] passes a
    guard exactly when the scalar constant [c] does, for every target value
    and every width; a vector constant that is no splat passes none. *)
Theorem uniform_vector_as_scalar (c : APFloat) (n : nat) (ty ty' : Type_)
    (d : DenseFPElementsAttr) (V : float) :
  isExponentValue None (Some (mkDenseFP ty (repeat c (S n)))) V
  = isExponentValue (Some (mkFloatAttr ty' c)) None V
  /\ (isSplat d = false -> isExponentValue None (Some d) V = false).
Proof.
  split.
  - unfold isExponentValue, isSplat, getSplatValue. simpl.
    rewrite forallb_repeat_refl. reflexivity.
  - intros H. unfold isExponentValue. rewrite H. reflexivity.
Qed.

(* ------------------------------------------------------------------------- *)
(** ** The broadcast *)
(* ------------------------------------------------------------------------- *)

Lemma In_insertBefore_new ip t l : In t (insertBefore ip t l).
Proof.
  induction l as [| o l IH]; simpl; [left; reflexivity |].
  destruct (opId o =? ip); [left; reflexivity | right; exact IH].
Qed.

(** X5. Given a value of the element type of the result, [bcast] returns a
    value of the result type: for a scalar result the value itself, the
    state untouched; for a vector result the result of one new broadcast of
    the value to that vector type, placed in the program. *)
Theorem bcast_has_result_type (op : PowFOp) (value : Value)
    (rw : PatternRewriter) :
  getValueType value = getElementTypeOrSelf (getType op) ->
  getValueType (fst (bcast op value rw)) = getType op
  /\ match getType op with
     | FloatTy _ => bcast op value rw = (value, rw)
     | VectorType _ _ =>
         fst (bcast op value rw) = OpResult (nextId rw) (getType op)
         /\ In (broadcastOp (nextId rw) (getType op) value)
               (block (snd (bcast op value rw)))
         /\ nextId (snd (bcast op value rw)) = S (nextId rw)
     end.
Proof.
  intros Hty. unfold bcast.
  destruct (getType op) as [t | shape t] eqn:E; simpl in *.
  - split; [exact Hty | reflexivity].
  - split; [reflexivity |]. split; [reflexivity |].
    split; [apply In_insertBefore_new | reflexivity].
Qed.

Lemma bcast_has_result_type_witness :
  let one := OpResult 3 f32 in
  getValueType one = getElementTypeOrSelf (getType vectorPow)
  /\ getValueType (fst (bcast vectorPow one (vectorProgram []))) = v4f32.
Proof.
  intros one. split; [reflexivity |].
  exact (proj1 (@bcast_has_result_type vectorPow one (vectorProgram [])
                  eq_refl)).
Defined.

(* ------------------------------------------------------------------------- *)
(** ** The program after a valid call, whatever the rule *)
(* ------------------------------------------------------------------------- *)

(** The operations a rule builds do not take the result of [op]. *)
Lemma builtOps_unused op rw pre post news :
  validCall op rw pre post -> builtOps op rw = Some news ->
  Forall (fun o => Forall (fun u => sameValue u (getResult (toOperation op))
                                    = false) (operands o)) news.
Proof.
  intros Hv Hb.
  pose proof (validCall_id_below Hv) as Hlt.
  pose proof (base_is_not_op Hv) as Hx.
  destruct (builtOps_cases _ _ Hb) as [-> | [-> | [-> | ->]]];
    unfold squareOps, cubeOps, reciprocalOps;
    try destruct (dyn_cast_VectorType (getType op));
    repeat (constructor; try assumption);
    apply Nat.eqb_neq; simpl; lia.
Qed.

(** Nor is the value substituted the result of [op]. *)
Lemma replacement_is_not_op op rw pre post news :
  validCall op rw pre post -> builtOps op rw = Some news ->
  sameValue (replacementValue op news) (getResult (toOperation op)) = false.
Proof.
  intros Hv Hb.
  pose proof (validCall_id_below Hv) as Hlt.
  pose proof (base_is_not_op Hv) as Hx.
  destruct (builtOps_cases _ _ Hb) as [-> | [-> | [-> | ->]]];
    unfold replacementValue, squareOps, cubeOps, reciprocalOps;
    try destruct (dyn_cast_VectorType (getType op));
    try exact Hx; apply Nat.eqb_neq; simpl; lia.
Qed.

Lemma map_redirect_unused from to l :
  Forall (fun o => Forall (fun u => sameValue u from = false) (operands o)) l ->
  map (replaceUsesOfWith from to) l = l.
Proof.
  intros H. induction H as [| o l Ho H IH]; simpl; [reflexivity |].
  rewrite (@redirect_unused from to o Ho), IH. reflexivity.
Qed.

(** In a valid call a rule leaves the operations it built where [op] stood,
    as it built them. *)
Lemma rewritten_valid op rw pre post news :
  validCall op rw pre post -> builtOps op rw = Some news ->
  let redirect := replaceUsesOfWith (getResult (toOperation op))
                                    (replacementValue op news) in
  rewritten op rw news
  = mkRewriter (map redirect pre ++ news ++ map redirect post)
               (getOperation op) (List.length news + nextId rw).
Proof.
  intros Hv Hb redirect.
  rewrite (rewritten_in_place Hv (builtOps_fresh _ _ Hb)).
  fold redirect. unfold redirect at 2.
  rewrite (@map_redirect_unused _ _ news (builtOps_unused Hv Hb)). reflexivity.
Qed.

Lemma usesValue_redirect from to o :
  sameValue to from = false ->
  usesValue from (replaceUsesOfWith from to o) = false.
Proof.
  intros Hto. unfold usesValue, replaceUsesOfWith. simpl.
  induction (operands o) as [| u us IH]; simpl; [reflexivity |].
  rewrite IH. destruct (sameValue u from) eqn:E; rewrite ?Hto, ?E; reflexivity.
Qed.

Lemma usesValue_false_iff v o :
  usesValue v o = false
  <-> Forall (fun u => sameValue u v = false) (operands o).
Proof.
  unfold usesValue. induction (operands o) as [| u us IH]; simpl.
  - split; [constructor | reflexivity].
  - rewrite orb_false_iff, IH. split.
    + intros [H1 H2]. constructor; assumption.
    + intros H. inversion H; subst. split; assumption.
Qed.

(** X6. After a successful rewrite in a valid call no operation of the
    program takes the result of the erased operation: every use has been
    redirected and the operations built do not use it. *)
Theorem no_use_of_the_erased_result (op : PowFOp) (rw : PatternRewriter)
    (pre post : list Operation) :
  validCall op rw pre post ->
  fst (matchAndRewrite op rw) = success ->
  Forall (fun o => usesValue (getResult (toOperation op)) o = false)
         (block (snd (matchAndRewrite op rw))).
Proof.
  intros Hv Hs. rewrite matchAndRewrite_run in *.
  destruct (builtOps op rw) as [news |] eqn:Hb; [| discriminate].
  cbn [snd]. rewrite (rewritten_valid Hv Hb). cbn [block].
  pose proof (replacement_is_not_op Hv Hb) as Hr.
  apply Forall_app; split; [| apply Forall_app; split].
  - apply Forall_forall. intros o Ho. apply in_map_iff in Ho.
    destruct Ho as (o0 & <- & _). apply usesValue_redirect. exact Hr.
  - eapply Forall_impl; [| exact (builtOps_unused Hv Hb)].
    intros o Ho. apply usesValue_false_iff. exact Ho.
  - apply Forall_forall. intros o Ho. apply in_map_iff in Ho.
    destruct Ho as (o0 & <- & _). apply usesValue_redirect. exact Hr.
Qed.

Lemma no_use_of_the_erased_result_witness :
  validCall scalarPow (scalarProgram (fpThree IEEEsingle))
    [scalarConstant (fpThree IEEEsingle)] [returnOp 2 (OpResult 1 f32)]
  /\ fst (matchAndRewrite scalarPow (scalarProgram (fpThree IEEEsingle)))
     = success
  /\ Forall (fun o => usesValue (OpResult 1 f32) o = false)
       (block (snd (matchAndRewrite scalarPow
                      (scalarProgram (fpThree IEEEsingle))))).
Proof.
  split; [apply scalarProgram_valid | split; [reflexivity |]].
  exact (no_use_of_the_erased_result
           (scalarProgram_valid (fpThree IEEEsingle)) eq_refl).
Defined.

(** X7. A successful rewrite in a valid call touches nothing else: the
    operations before and after [op] keep their place and order, an operation
    that does not take the result of [op] is left exactly as it was, the
    others differ in that operand only, and what was built stands where [op]
    stood. *)
Theorem others_stay_in_place (op : PowFOp) (rw : PatternRewriter)
    (pre post : list Operation) :
  validCall op rw pre post ->
  fst (matchAndRewrite op rw) = success ->
  exists news v,
    let redirect := replaceUsesOfWith (getResult (toOperation op)) v in
    block (snd (matchAndRewrite op rw))
    = map redirect pre ++ news ++ map redirect post
    /\ newOps (block rw) (block (snd (matchAndRewrite op rw))) = news
    /\ (forall o, usesValue (getResult (toOperation op)) o = false ->
                  redirect o = o)
    /\ (forall o, opId (redirect o) = opId o /\ kind (redirect o) = kind o
                  /\ resultType (redirect o) = resultType o).
Proof.
  intros Hv Hs. rewrite matchAndRewrite_run in *.
  destruct (builtOps op rw) as [news |] eqn:Hb; [| discriminate].
  exists news, (replacementValue op news). cbn [snd]. cbv zeta.
  rewrite (rewritten_valid Hv Hb). cbn [block].
  split; [reflexivity | split; [| split]].
  - apply (newOps_in_place _ _ Hv (builtOps_fresh _ _ Hb)).
  - intros o Ho. apply redirect_unused. apply usesValue_false_iff. exact Ho.
  - intros o. repeat split.
Qed.

Lemma others_stay_in_place_witness :
  validCall scalarPow (scalarProgram (fpOne IEEEsingle))
    [scalarConstant (fpOne IEEEsingle)] [returnOp 2 (OpResult 1 f32)]
  /\ fst (matchAndRewrite scalarPow (scalarProgram (fpOne IEEEsingle)))
     = success
  /\ exists news v,
       block (snd (matchAndRewrite scalarPow
                     (scalarProgram (fpOne IEEEsingle))))
       = map (replaceUsesOfWith (OpResult 1 f32) v)
             [scalarConstant (fpOne IEEEsingle)]
         ++ news
         ++ map (replaceUsesOfWith (OpResult 1 f32) v)
                [returnOp 2 (OpResult 1 f32)].
Proof.
  split; [apply scalarProgram_valid | split; [reflexivity |]].
  destruct (others_stay_in_place (scalarProgram_valid (fpOne IEEEsingle))
              eq_refl) as (news & v & H & _).
  exists news, v. exact H.
Defined.

(* ------------------------------------------------------------------------- *)
(** ** Progress *)
(* ------------------------------------------------------------------------- *)

Lemma builtOps_no_pow op rw news :
  builtOps op rw = Some news -> Forall (fun o => isPowF o = false) news.
Proof.
  intros Hb. eapply Forall_impl; [| exact (builtOps_kinds _ _ Hb)].
  intros o. unfold builtKind, isPowF. destruct (kind o); congruence.
Qed.

(** X8. Each successful rewrite in a valid call lowers the number of power
    operations of the program by exactly one, and changes the number of
    operations by the number built minus one; so a driver that applies the
    pattern until it fails stops after at most as many rewrites as the
    program had power operations. *)
Theorem each_rewrite_removes_one_pow (op : PowFOp) (rw : PatternRewriter)
    (pre post : list Operation) :
  validCall op rw pre post ->
  fst (matchAndRewrite op rw) = success ->
  let rw' := snd (matchAndRewrite op rw) in
  S (List.length (filter isPowF (block rw')))
  = List.length (filter isPowF (block rw))
  /\ S (List.length (block rw'))
     = List.length (newOps (block rw) (block rw')) + List.length (block rw).
Proof.
  intros Hv Hs rw'. subst rw'. rewrite matchAndRewrite_run in *.
  destruct (builtOps op rw) as [news |] eqn:Hb; [| discriminate].
  cbn [snd]. rewrite (newOps_rewritten_valid Hv Hb).
  rewrite (rewritten_valid Hv Hb). cbn [block].
  rewrite (op_in_block Hv). split.
  - rewrite !filter_app, !length_app. simpl.
    rewrite !count_redirect by reflexivity.
    rewrite (count_none _ (builtOps_no_pow _ _ Hb)). simpl. lia.
  - rewrite !length_app, !length_map. simpl. lia.
Qed.

Lemma each_rewrite_removes_one_pow_witness :
  validCall innerPow nestedProgram
    [constantOp 0 (mkFloatAttr f32 (fpTwo IEEEsingle));
     constantOp 1 (mkFloatAttr f32 (fpOne IEEEsingle))]
    [toOperation outerPow; returnOp 4 (OpResult 3 f32)]
  /\ fst (matchAndRewrite innerPow nestedProgram) = success
  /\ List.length
       (filter isPowF (block (snd (matchAndRewrite innerPow nestedProgram))))
     = 1.
Proof.
  assert (Hv : validCall innerPow nestedProgram
                 [constantOp 0 (mkFloatAttr f32 (fpTwo IEEEsingle));
                  constantOp 1 (mkFloatAttr f32 (fpOne IEEEsingle))]
                 [toOperation outerPow; returnOp 4 (OpResult 3 f32)]).
  { constructor; try reflexivity.
    - repeat constructor.
    - repeat constructor; discriminate. }
  split; [exact Hv | split; [reflexivity |]].
  pose proof (proj1 (each_rewrite_removes_one_pow Hv eq_refl)) as H.
  apply eq_add_S. exact H.
Defined.

(* ------------------------------------------------------------------------- *)
(** ** Identities *)
(* ------------------------------------------------------------------------- *)

Lemma builtOps_ids op rw news :
  builtOps op rw = Some news ->
  map opId news = seq (nextId rw) (List.length news).
Proof.
  intros H. destruct (builtOps_cases _ _ H) as [-> | [-> | [-> | ->]]];
    unfold squareOps, cubeOps, reciprocalOps;
    try destruct (dyn_cast_VectorType (getType op)); reflexivity.
Qed.

Lemma ids_insertBefore ip t l i :
  In i (map opId (insertBefore ip t l)) -> i = opId t \/ In i (map opId l).
Proof.
  intros H. apply in_map_iff in H. destruct H as (o & <- & H).
  apply In_insertBefore in H. destruct H as [-> | H]; [left; reflexivity |].
  right. apply in_map. exact H.
Qed.

Lemma NoDup_insertBefore ip t l :
  ~ In (opId t) (map opId l) -> NoDup (map opId l) ->
  NoDup (map opId (insertBefore ip t l)).
Proof.
  induction l as [| o l IH]; simpl; intros Ht Hl.
  - constructor; [intros [] | constructor].
  - destruct (opId o =? ip); simpl.
    + constructor; [exact Ht | exact Hl].
    + inversion Hl as [| ? ? Ho Hl']; subst. constructor.
      * intros H. apply ids_insertBefore in H. destruct H as [H | H].
        -- apply Ht. left. exact H.
        -- apply Ho. exact H.
      * apply IH; [| exact Hl']. intros H. apply Ht. right. exact H.
Qed.

Lemma NoDup_insertAll ip news : forall l,
  NoDup (map opId news) ->
  (forall t, In t news -> ~ In (opId t) (map opId l)) ->
  NoDup (map opId l) ->
  NoDup (map opId (fold_left (fun ops t => insertBefore ip t ops) news l)).
Proof.
  induction news as [| t news IH]; intros l Hn Hfresh Hl; simpl; [exact Hl |].
  simpl in Hn. inversion Hn as [| ? ? Ht Hn']; subst.
  apply IH; [exact Hn' | |].
  - intros t' Ht' H. apply ids_insertBefore in H. destruct H as [H | H].
    + apply Ht. rewrite <- H. apply in_map. exact Ht'.
    + apply (Hfresh t'); [right; exact Ht' | exact H].
  - apply NoDup_insertBefore; [| exact Hl]. apply Hfresh. left. reflexivity.
Qed.

Lemma ids_redirect from to l :
  map opId (map (replaceUsesOfWith from to) l) = map opId l.
Proof. rewrite map_map. reflexivity. Qed.

Lemma NoDup_eraseOp id l :
  NoDup (map opId l) -> NoDup (map opId (eraseOp id l)).
Proof.
  unfold eraseOp. induction l as [| o l IH]; simpl; intros H; [constructor |].
  inversion H as [| ? ? Ho Hl]; subst.
  destruct (opId o =? id); simpl; [apply IH; exact Hl |].
  constructor; [| apply IH; exact Hl].
  intros Hin. apply Ho. apply in_map_iff in Hin.
  destruct Hin as (o' & Hid & Hin). apply filter_In in Hin.
  rewrite <- Hid. apply in_map. exact (proj1 Hin).
Qed.

(** X9. Every call of [matchAndRewrite], whatever it returns, keeps the
    identities of the program sound: when no two operations share an identity
    and all identities are below the next one, the same holds of the state it
    leaves.  The operations built get the next identities, in order. *)
Theorem identities_stay_sound (op : PowFOp) (rw : PatternRewriter) :
  wellFormedIds rw -> wellFormedIds (snd (matchAndRewrite op rw)).
Proof.
  intros [Hnd Hlt]. rewrite matchAndRewrite_run.
  destruct (builtOps op rw) as [news |] eqn:Hb; cbn [snd];
    [| split; assumption].
  pose proof (builtOps_ids _ _ Hb) as Hids.
  unfold wellFormedIds, rewritten. cbn [block nextId]. split.
  - apply NoDup_eraseOp. rewrite ids_redirect.
    apply NoDup_insertAll; [rewrite Hids; apply seq_NoDup | | exact Hnd].
    intros t Ht Hin. apply (in_map opId) in Ht. rewrite Hids in Ht.
    apply in_seq in Ht. apply in_map_iff in Hin.
    destruct Hin as (o & Ho & Hin). rewrite Forall_forall in Hlt.
    specialize (Hlt o Hin). lia.
  - apply Forall_forall. intros o Ho. unfold eraseOp in Ho.
    apply filter_In in Ho. destruct Ho as [Ho _].
    apply in_map_iff in Ho. destruct Ho as (o0 & <- & Ho). simpl.
    apply In_insertAll in Ho. destruct Ho as [Ho | Ho].
    + apply (in_map opId) in Ho. rewrite Hids in Ho. apply in_seq in Ho. lia.
    + rewrite Forall_forall in Hlt. specialize (Hlt o0 Ho). lia.
Qed.

Lemma identities_stay_sound_witness :
  wellFormedIds nestedProgram
  /\ wellFormedIds (snd (matchAndRewrite innerPow nestedProgram)).
Proof.
  assert (H : wellFormedIds nestedProgram).
  { split.
    - repeat constructor; simpl; intuition discriminate.
    - repeat constructor. }
  split; [exact H | exact (identities_stay_sound innerPow H)].
Defined.

(* ------------------------------------------------------------------------- *)
(** ** Definitions before uses *)
(* ------------------------------------------------------------------------- *)

Lemma definedIn_In i ty d : definedIn d (OpResult i ty) = true <-> In i d.
Proof.
  simpl. rewrite existsb_exists. split.
  - intros (x & Hx & E). apply Nat.eqb_eq in E. subst. exact Hx.
  - intros H. exists i. split; [exact H | apply Nat.eqb_refl].
Qed.

Lemma definedIn_mono d d' u :
  (forall i, In i d -> In i d') ->
  definedIn d u = true -> definedIn d' u = true.
Proof.
  intros Hsub. destruct u as [n ty | i ty]; [reflexivity |].
  rewrite !definedIn_In. apply Hsub.
Qed.

Lemma inOrder_app a : forall d b,
  inOrder d (a ++ b)
  = inOrder d a && inOrder (rev (map opId a) ++ d) b.
Proof.
  induction a as [| o a IH]; intros d b; simpl; [reflexivity |].
  rewrite IH, <- app_assoc, andb_assoc. reflexivity.
Qed.

Lemma inOrder_mono ops : forall d d',
  (forall i, In i d -> In i d') ->
  inOrder d ops = true -> inOrder d' ops = true.
Proof.
  induction ops as [| o ops IH]; intros d d' Hsub; simpl; [reflexivity |].
  rewrite !andb_true_iff, !forallb_forall. intros [Ho Hrest]. split.
  - intros u Hu. apply (@definedIn_mono d d' u Hsub). apply Ho. exact Hu.
  - apply (IH (opId o :: d)); [| exact Hrest].
    intros i [<- | Hi]; [left; reflexivity | right; apply Hsub; exact Hi].
Qed.

(** Operations in order, none of which is [id] or comes after it, do not
    take its result. *)
Lemma inOrder_unused id ty ops : forall d,
  ~ In id d -> Forall (fun o => opId o <> id) ops ->
  inOrder d ops = true ->
  Forall (fun o => Forall (fun u => sameValue u (OpResult id ty) = false)
                          (operands o)) ops.
Proof.
  induction ops as [| o ops IH]; intros d Hd Hops; simpl; [constructor |].
  inversion Hops as [| ? ? Ho Hops']; subst.
  rewrite andb_true_iff, forallb_forall. intros [Hu Hrest]. constructor.
  - apply Forall_forall. intros u Hin. specialize (Hu u Hin).
    destruct u as [n t | i t]; [reflexivity |].
    apply definedIn_In in Hu. simpl. apply Nat.eqb_neq. intros ->.
    exact (Hd Hu).
  - apply (IH (opId o :: d)); [| exact Hops' | exact Hrest].
    intros [H | H]; [exact (Ho H) | exact (Hd H)].
Qed.

(** Redirecting the uses of [id] to a value that is defined keeps the
    order. *)
Lemma inOrder_redirect id ty v ops : forall d d',
  definedIn d' v = true ->
  (forall i, In i d -> i <> id -> In i d') ->
  inOrder d ops = true ->
  inOrder d' (map (replaceUsesOfWith (OpResult id ty) v) ops) = true.
Proof.
  induction ops as [| o ops IH]; intros d d' Hv Hsub; simpl; [reflexivity |].
  rewrite !andb_true_iff, !forallb_forall. intros [Hu Hrest]. split.
  - intros u Hin. apply in_map_iff in Hin. destruct Hin as (u0 & <- & Hin).
    specialize (Hu u0 Hin).
    destruct (sameValue u0 (OpResult id ty)) eqn:E; [exact Hv |].
    destruct u0 as [n t | i t]; [reflexivity |].
    apply definedIn_In in Hu. apply definedIn_In. simpl in E.
    apply Nat.eqb_neq in E. apply Hsub; assumption.
  - apply (IH (opId o :: d)); [| | exact Hrest].
    + apply (@definedIn_mono d' (opId o :: d') v); [| exact Hv].
      intros i Hi. right. exact Hi.
    + intros i [<- | Hi] Hne; [left; reflexivity | right; apply Hsub; assumption].
Qed.

(** What a rule builds is in order, and the value it substitutes is defined,
    where [x] is. *)
Lemma builtOps_inOrder op rw news d :
  builtOps op rw = Some news -> definedIn d (lhs op) = true ->
  inOrder d news = true
  /\ definedIn (rev (map opId news) ++ d) (replacementValue op news) = true.
Proof.
  intros Hb Hx.
  assert (Hx1 : forall i, definedIn (i :: d) (lhs op) = true).
  { intros i. apply (@definedIn_mono d (i :: d) (lhs op)); [| exact Hx].
    intros j Hj. right. exact Hj. }
  assert (Hx2 : forall i j, definedIn (i :: j :: d) (lhs op) = true).
  { intros i j. apply (@definedIn_mono d (i :: j :: d) (lhs op)); [| exact Hx].
    intros k Hk. right. right. exact Hk. }
  destruct (builtOps_cases _ _ Hb) as [-> | [-> | [-> | ->]]];
    unfold replacementValue, squareOps, cubeOps, reciprocalOps;
    try destruct (dyn_cast_VectorType (getType op)); simpl;
    rewrite ?Hx, ?Hx1, ?Hx2, ?Nat.eqb_refl; simpl; auto.
Qed.

(** X10. A rewrite keeps definitions before uses: when, in a valid call,
    every operand in the program is a block argument or the result of an
    earlier operation, the same holds of the program the call leaves. *)
Theorem definitions_stay_before_uses (op : PowFOp) (rw : PatternRewriter)
    (pre post : list Operation) :
  validCall op rw pre post ->
  inOrder [] (block rw) = true ->
  inOrder [] (block (snd (matchAndRewrite op rw))) = true.
Proof.
  intros Hv Hord. rewrite matchAndRewrite_run.
  destruct (builtOps op rw) as [news |] eqn:Hb; cbn [snd]; [| exact Hord].
  rewrite (rewritten_valid Hv Hb). cbn [block].
  rewrite (op_in_block Hv), inOrder_app in Hord. simpl in Hord.
  rewrite !andb_true_iff, app_nil_r in Hord.
  destruct Hord as (Hpre & (Hx & _) & Hpost).
  pose proof (id_of_op_unique Hv) as Huniq.
  apply Forall_app in Huniq. destruct Huniq as [Hupre _].
  rewrite (@map_redirect_unused _ _ pre
             (@inOrder_unused (getOperation op) (getType op) pre []
                (fun H => H) Hupre Hpre)).
  destruct (@builtOps_inOrder op rw news (rev (map opId pre)) Hb Hx)
    as [Hnews Hv'].
  rewrite !inOrder_app, app_nil_r, !andb_true_iff.
  split; [exact Hpre | split; [exact Hnews |]].
  apply (@inOrder_redirect (getOperation op) (getType op) _ post
           (getOperation op :: rev (map opId pre))); [exact Hv' | | exact Hpost].
  intros i [<- | Hi] Hne; [contradiction |].
  apply in_or_app. right. exact Hi.
Qed.

Lemma definitions_stay_before_uses_witness :
  validCall innerPow nestedProgram
    [constantOp 0 (mkFloatAttr f32 (fpTwo IEEEsingle));
     constantOp 1 (mkFloatAttr f32 (fpOne IEEEsingle))]
    [toOperation outerPow; returnOp 4 (OpResult 3 f32)]
  /\ inOrder [] (block nestedProgram) = true
  /\ inOrder [] (block (snd (matchAndRewrite innerPow nestedProgram))) = true.
Proof.
  assert (Hv : validCall innerPow nestedProgram
                 [constantOp 0 (mkFloatAttr f32 (fpTwo IEEEsingle));
                  constantOp 1 (mkFloatAttr f32 (fpOne IEEEsingle))]
                 [toOperation outerPow; returnOp 4 (OpResult 3 f32)]).
  { constructor; try reflexivity.
    - repeat constructor.
    - repeat constructor; discriminate. }
  split; [exact Hv | split; [reflexivity |]].
  exact (definitions_stay_before_uses Hv eq_refl).
Defined.

(* ------------------------------------------------------------------------- *)
(** ** The types of what is built *)
(* ------------------------------------------------------------------------- *)

(** X11. When the base has the result type, the operations a rewrite leaves
    new in the program are well typed: the operands of a multiply or divide
    have the type of its result, which is the result type of [op]; a
    broadcast takes a value of the element type of its result; a constant
    takes no operand. *)
Theorem built_operations_are_well_typed (op : PowFOp) (rw : PatternRewriter)
    (pre post : list Operation) :
  validCall op rw pre post ->
  getValueType (lhs op) = getType op ->
  Forall (fun o =>
            match kind o with
            | MulF | DivF =>
                sameOperandsAndResultType o /\ resultType o = getType op
            | Broadcast =>
                Forall (fun u => getValueType u
                                 = getElementTypeOrSelf (resultType o))
                       (operands o)
                /\ resultType o = getType op
            | Constant _ => operands o = []
            | _ => False
            end)
         (newOps (block rw) (block (snd (matchAndRewrite op rw)))).
Proof.
  intros Hv Hty. rewrite matchAndRewrite_run.
  destruct (builtOps op rw) as [news |] eqn:Hb; cbn [snd];
    [| rewrite newOps_unchanged; constructor].
  rewrite (rewritten_valid Hv Hb). cbn [block].
  rewrite (newOps_in_place _ _ Hv (builtOps_fresh _ _ Hb)).
  unfold sameOperandsAndResultType.
  destruct (builtOps_cases _ _ Hb) as [-> | [-> | [-> | ->]]];
    unfold squareOps, cubeOps, reciprocalOps.
  - constructor.
  - repeat constructor; exact Hty.
  - repeat constructor; exact Hty.
  - destruct (getType op) as [t | shape t] eqn:E; cbn -[getFloatAttr];
      repeat constructor; cbn -[getFloatAttr];
      rewrite ?attrType_getFloatAttr;
      try reflexivity; try exact Hty; symmetry; exact Hty.
Qed.

Lemma built_operations_are_well_typed_witness :
  let cs := repeat (fpMinusOne IEEEsingle) 4 in
  validCall vectorPow (vectorProgram cs)
    [vectorConstant cs] [returnOp 2 (OpResult 1 v4f32)]
  /\ getValueType (lhs vectorPow) = getType vectorPow
  /\ Forall (fun o =>
               match kind o with
               | MulF | DivF =>
                   sameOperandsAndResultType o /\ resultType o = v4f32
               | Broadcast =>
                   Forall (fun u => getValueType u
                                    = getElementTypeOrSelf (resultType o))
                          (operands o)
                   /\ resultType o = v4f32
               | Constant _ => operands o = []
               | _ => False
               end)
            (newOps (block (vectorProgram cs))
               (block (snd (matchAndRewrite vectorPow (vectorProgram cs))))).
Proof.
  intros cs.
  split; [apply vectorProgram_valid | split; [reflexivity |]].
  exact (built_operations_are_well_typed (vectorProgram_valid cs) eq_refl).
Defined.

(* ------------------------------------------------------------------------- *)
(** ** Constants across a rewrite *)
(* ------------------------------------------------------------------------- *)

Lemma find_app_first (f : Operation -> bool) a b :
  find f (a ++ b)
  = match find f a with Some x => Some x | None => find f b end.
Proof.
  induction a as [| o a IH]; simpl; [reflexivity |].
  destruct (f o); [reflexivity | exact IH].
Qed.

Lemma find_redirect i from to l :
  find (fun o => opId o =? i) (map (replaceUsesOfWith from to) l)
  = option_map (replaceUsesOfWith from to) (find (fun o => opId o =? i) l).
Proof.
  induction l as [| o l IH]; simpl; [reflexivity |].
  destruct (opId o =? i); [reflexivity | exact IH].
Qed.

Lemma find_fresh i n news :
  Forall (fun o => n <= opId o) news -> i < n ->
  find (fun o => opId o =? i) news = None.
Proof.
  intros H Hi. induction H as [| o news Ho H IH]; simpl; [reflexivity |].
  replace (opId o =? i) with false by (symmetry; apply Nat.eqb_neq; lia).
  exact IH.
Qed.

Lemma find_absent i l :
  Forall (fun o => opId o <> i) l -> find (fun o => opId o =? i) l = None.
Proof.
  intros H. induction H as [| o l Ho H IH]; simpl; [reflexivity |].
  apply Nat.eqb_neq in Ho. rewrite Ho. exact IH.
Qed.

(** The classification of an operand looks at the kind of the operation that
    defines it, and at nothing else. *)
Lemma exponentValue_by_kind ops ops' e :
  option_map kind (getDefiningOp e ops') = option_map kind (getDefiningOp e ops) ->
  exponentValue ops' e = exponentValue ops e.
Proof.
  unfold exponentValue, classifyExponent.
  destruct (getDefiningOp e ops') as [o' |], (getDefiningOp e ops) as [o |];
    simpl; intros H; try discriminate; [| reflexivity].
  injection H as ->. reflexivity.
Qed.

(** X12. A rewrite does not disturb the constants of the program: a value
    that was a recognized constant exponent before a valid call is not the
    result of [op], so no use of it is redirected, and it is the same
    recognized constant after the call.  A power operation that matched a
    rule before another one was rewritten matches it after. *)
Theorem recognized_constants_survive (op : PowFOp) (rw : PatternRewriter)
    (pre post : list Operation) (e : Value) (c : APFloat) :
  validCall op rw pre post ->
  exponentValue (block rw) e = Some c ->
  sameValue e (getResult (toOperation op)) = false
  /\ exponentValue (block (snd (matchAndRewrite op rw))) e = Some c
  /\ (forall op' V,
        rhs op' = e ->
        exponentIs op' (snd (matchAndRewrite op rw)) V = exponentIs op' rw V).
Proof.
  intros Hv Hc.
  cut (sameValue e (getResult (toOperation op)) = false
       /\ exponentValue (block (snd (matchAndRewrite op rw))) e = Some c).
  { intros [H1 H2]. split; [exact H1 | split; [exact H2 |]].
    intros op' V <-. rewrite !exponentIs_exponentValue, H2, Hc. reflexivity. }
  assert (Hdef : exists i ty o,
             e = OpResult i ty
             /\ find (fun o => opId o =? i) (block rw) = Some o
             /\ kind o <> PowF).
  { unfold exponentValue, classifyExponent in Hc.
    destruct e as [n ty | i ty]; simpl in Hc; [discriminate |].
    destruct (find (fun o => opId o =? i) (block rw)) as [o |] eqn:F;
      [| discriminate].
    exists i, ty, o. split; [reflexivity | split; [exact F |]].
    intros K. rewrite K in Hc. discriminate. }
  destruct Hdef as (i & ty & o & -> & Hfind & Hkind).
  pose proof (find_some _ _ Hfind) as [Hin Hid]. apply Nat.eqb_eq in Hid.
  assert (Hlt : i < nextId rw).
  { pose proof (ids_below_next Hv) as Hb. rewrite Forall_forall in Hb.
    rewrite <- Hid. apply Hb. exact Hin. }
  pose proof (id_of_op_unique Hv) as Huniq.
  apply Forall_app in Huniq. destruct Huniq as [Hupre Hupost].
  rewrite (op_in_block Hv), find_app_first in Hfind. simpl in Hfind.
  assert (Hne : i <> getOperation op).
  { intros ->. rewrite (find_absent Hupre), Nat.eqb_refl in Hfind.
    injection Hfind as <-. apply Hkind. reflexivity. }
  split; [simpl; apply Nat.eqb_neq; exact Hne |].
  rewrite <- Hc. apply exponentValue_by_kind.
  rewrite matchAndRewrite_run.
  destruct (builtOps op rw) as [news |] eqn:Hb; cbn [snd]; [| reflexivity].
  rewrite (rewritten_valid Hv Hb). cbn [block]. simpl getDefiningOp.
  rewrite (op_in_block Hv), !find_app_first, !find_redirect. simpl find.
  rewrite (find_fresh (builtOps_fresh _ _ Hb) Hlt).
  replace (getOperation op =? i) with false
    by (symmetry; apply Nat.eqb_neq; intros H; apply Hne; symmetry; exact H).
  destruct (find (fun o0 => opId o0 =? i) pre) as [o1 |]; [reflexivity |].
  destruct (find (fun o0 => opId o0 =? i) post) as [o2 |]; reflexivity.
Qed.

Lemma recognized_constants_survive_witness :
  let two := OpResult 0 f32 in
  validCall innerPow nestedProgram
    [constantOp 0 (mkFloatAttr f32 (fpTwo IEEEsingle));
     constantOp 1 (mkFloatAttr f32 (fpOne IEEEsingle))]
    [toOperation outerPow; returnOp 4 (OpResult 3 f32)]
  /\ exponentValue (block nestedProgram) two = Some (fpTwo IEEEsingle)
  /\ exponentValue (block (snd (matchAndRewrite innerPow nestedProgram))) two
     = Some (fpTwo IEEEsingle).
Proof.
  intros two.
  assert (Hv : validCall innerPow nestedProgram
                 [constantOp 0 (mkFloatAttr f32 (fpTwo IEEEsingle));
                  constantOp 1 (mkFloatAttr f32 (fpOne IEEEsingle))]
                 [toOperation outerPow; returnOp 4 (OpResult 3 f32)]).
  { constructor; try reflexivity.
    - repeat constructor.
    - repeat constructor; discriminate. }
  split; [exact Hv | split; [reflexivity |]].
  exact (proj1 (proj2 (@recognized_constants_survive innerPow nestedProgram
                         _ _ two (fpTwo IEEEsingle) Hv eq_refl))).
Defined.

(* ------------------------------------------------------------------------- *)
(** ** The exact match *)
(* ------------------------------------------------------------------------- *)

(** In a valid call a rule takes [op] out of the program. *)
Lemma rewritten_erases_op op rw pre post news :
  validCall op rw pre post -> builtOps op rw = Some news ->
  ~ In (getOperation op) (map opId (block (rewritten op rw news))).
Proof.
  intros Hv Hb. pose proof (validCall_id_below Hv) as Hlt.
  pose proof (id_of_op_unique Hv) as Huniq.
  apply Forall_app in Huniq. destruct Huniq as [Hpre Hpost].
  rewrite (rewritten_valid Hv Hb). cbn [block].
  rewrite !map_app, !ids_redirect, !in_app_iff.
  intros [H | [H | H]]; apply in_map_iff in H; destruct H as (o & Hid & Hin).
  - rewrite Forall_forall in Hpre. exact (Hpre o Hin Hid).
  - pose proof (builtOps_fresh _ _ Hb) as Hf. rewrite Forall_forall in Hf.
    specialize (Hf o Hin). lia.
  - rewrite Forall_forall in Hpost. exact (Hpost o Hin Hid).
Qed.

(** C1. [matchAndRewrite] rewrites if and only if the exponent operand is a
    scalar constant, or a uniform vector constant, whose value is bit for bit
    one of the keys 1.0, 2.0, 3.0, -1.0.  On such an exponent it returns
    success and leaves the rewritten state: what the rule of the key builds
    is placed before the operation, the uses of its result are redirected to
    the replacement and the operation is erased; in a valid call the
    operation is then no longer in the program, which has what was built in
    its place.  On every other exponent it returns failure and the rewriter
    state is unchanged.  The exponent 1.0000001, held as f64 or as f32, is
    not the key 1.0. *)
Theorem rewrite_iff_exact_key (op : PowFOp) (rw : PatternRewriter) :
  (fst (matchAndRewrite op rw) = success
   <-> match classifyExponent (block rw) (rhs op) with
       | Scalar c | UniformVector c _ => isRuleKey c
       | NotConstant => False
       end)
  /\ match classifyExponent (block rw) (rhs op) with
     | Scalar c | UniformVector c _ =>
         (c = fpOne (getSemantics c) ->
          matchAndRewrite op rw = (success, rewritten op rw []))
         /\ (c = fpTwo (getSemantics c) ->
             matchAndRewrite op rw
             = (success, rewritten op rw (squareOps op (nextId rw))))
         /\ (c = fpThree (getSemantics c) ->
             matchAndRewrite op rw
             = (success, rewritten op rw (cubeOps op (nextId rw))))
         /\ (c = fpMinusOne (getSemantics c) ->
             matchAndRewrite op rw
             = (success, rewritten op rw (reciprocalOps op (nextId rw))))
         /\ (~ isRuleKey c -> matchAndRewrite op rw = (failure, rw))
     | NotConstant => matchAndRewrite op rw = (failure, rw)
     end
  /\ (forall pre post,
        validCall op rw pre post ->
        fst (matchAndRewrite op rw) = success ->
        exists news,
          let redirect := replaceUsesOfWith (getResult (toOperation op))
                                            (replacementValue op news) in
          block (snd (matchAndRewrite op rw))
          = map redirect pre ++ news ++ map redirect post
          /\ ~ In (getOperation op)
                  (map opId (block (snd (matchAndRewrite op rw))))
          /\ snd (matchAndRewrite op rw) <> rw)
  /\ isExactlyValue (convert IEEEdouble (APFloat_of_double nearlyOne)) 1.0%float
     = false
  /\ isExactlyValue (convert IEEEsingle (APFloat_of_double nearlyOne)) 1.0%float
     = false.
Proof.
  split; [| split; [| split; [| split; vm_compute; reflexivity]]].
  - pose proof (builtOps_Some_iff op rw) as H. unfold exponentValue in H.
    rewrite matchAndRewrite_run.
    destruct (classifyExponent (block rw) (rhs op)) as [c | c n |];
      destruct (builtOps op rw) as [news |]; simpl; split; intros H';
      try reflexivity; try discriminate;
      try (apply H; eauto); try (apply H in H'; destruct H'; discriminate).
  - assert (Hkey : forall c key,
               exponentValue (block rw) (rhs op) = Some c ->
               c = key (getSemantics c) -> hasExponent rw op key).
    { intros c key Hc Hk. exists c. split; assumption. }
    assert (Hnone : forall c,
               exponentValue (block rw) (rhs op) = Some c ->
               ~ isRuleKey c -> matchAndRewrite op rw = (failure, rw)).
    { intros c Hc Hn. rewrite matchAndRewrite_run.
      destruct (builtOps op rw) as [news |] eqn:Hb; [| reflexivity].
      exfalso. apply Hn.
      pose proof (proj1 (builtOps_Some_iff op rw) (ex_intro _ news Hb)) as H.
      rewrite Hc in H. exact H. }
    destruct (classifyExponent (block rw) (rhs op)) as [c | c n |] eqn:E.
    + assert (Hc : exponentValue (block rw) (rhs op) = Some c)
        by (unfold exponentValue; rewrite E; reflexivity).
      repeat split; intros Hk; try exact (Hnone c Hc Hk);
        rewrite matchAndRewrite_run.
      * rewrite (builtOps_one (Hkey _ _ Hc Hk)). reflexivity.
      * rewrite (builtOps_two (Hkey _ _ Hc Hk)). reflexivity.
      * rewrite (builtOps_three (Hkey _ _ Hc Hk)). reflexivity.
      * rewrite (builtOps_minus_one (Hkey _ _ Hc Hk)). reflexivity.
    + assert (Hc : exponentValue (block rw) (rhs op) = Some c)
        by (unfold exponentValue; rewrite E; reflexivity).
      repeat split; intros Hk; try exact (Hnone c Hc Hk);
        rewrite matchAndRewrite_run.
      * rewrite (builtOps_one (Hkey _ _ Hc Hk)). reflexivity.
      * rewrite (builtOps_two (Hkey _ _ Hc Hk)). reflexivity.
      * rewrite (builtOps_three (Hkey _ _ Hc Hk)). reflexivity.
      * rewrite (builtOps_minus_one (Hkey _ _ Hc Hk)). reflexivity.
    + rewrite matchAndRewrite_run.
      destruct (builtOps op rw) as [news |] eqn:Hb; [| reflexivity].
      pose proof (proj1 (builtOps_Some_iff op rw) (ex_intro _ news Hb)) as H.
      unfold exponentValue in H. rewrite E in H. destruct H.
  - intros pre post Hv Hs. rewrite matchAndRewrite_run in *.
    destruct (builtOps op rw) as [news |] eqn:Hb; [| discriminate].
    exists news. cbn [snd]. cbv zeta.
    pose proof (rewritten_erases_op Hv Hb) as Hgone.
    split; [rewrite (rewritten_valid Hv Hb); reflexivity | split].
    + exact Hgone.
    + intros Heq. apply Hgone. rewrite Heq, (op_in_block Hv), map_app.
      apply in_or_app. right. left. reflexivity.
Qed.

Lemma rewrite_iff_exact_key_witness :
  validCall scalarPow (scalarProgram (fpTwo IEEEsingle))
    [scalarConstant (fpTwo IEEEsingle)] [returnOp 2 (OpResult 1 f32)]
  /\ fst (matchAndRewrite scalarPow (scalarProgram (fpTwo IEEEsingle)))
     = success
  /\ ~ In (getOperation scalarPow)
          (map opId (block (snd (matchAndRewrite scalarPow
                                   (scalarProgram (fpTwo IEEEsingle)))))).
Proof.
  split; [apply scalarProgram_valid | split; [reflexivity |]].
  destruct (rewrite_iff_exact_key scalarPow (scalarProgram (fpTwo IEEEsingle)))
    as (_ & _ & H & _).
  destruct (H _ _ (scalarProgram_valid (fpTwo IEEEsingle)) eq_refl)
    as (news & _ & Hgone & _).
  exact Hgone.
Defined.

(* ------------------------------------------------------------------------- *)
(** ** Invoking the pattern again *)
(* ------------------------------------------------------------------------- *)





